(** * steinfletcher/bus: the message bus of [bus.go]

    A shallow embedding of [bus.go] (package [bus]) and the properties of
    its dispatch engine: registration ([Subscribe], [SubscribeAsync] and
    the [Must] variants), publication ([Publish]) and the handler
    registry ([handlers.Add], [handlers.Get], [handlers.Iter]).

    The bus works on [interface{}] values through package [reflect]; the
    first part of the file models the fragment of [reflect] the bus uses
    (types, their kind and [String()], [Value.Call]).  The functions of
    the bus are then given as they run when the calls of [Subscribe] and
    [Publish] come one after the other: they thread a [world] that holds
    the channels of the asynchronous handlers, with the goroutines that
    serve them, a trace of what happened, and what the goroutines leave
    behind for the calls that follow: whether a goroutine of [Iter] that
    nobody receives from any more keeps the lock of the registry, and
    whether a panic in a goroutine has ended the process.  The
    vocabulary of the properties and the properties follow.
    [Module Locking], at the end, gives the interleaving semantics of
    the goroutines that take the lock, statement by statement.

    Assumptions on user code and on callers, used throughout: a handler
    terminates, does not panic and does not call back into the bus; what
    it returns is a function of the context and the message; function
    types are not variadic. *)

From stdpp Require Import base option list strings gmap fin_maps.
From Stdlib Require Import ZArith Lia.

Local Open Scope string_scope.
Local Open Scope Z_scope.

(** ** Package [reflect]: types *)

Module Reflect.

(** [reflect.Kind], restricted to the kinds a handler or message can
    have in this development. *)
Inductive Kind :=
  | Bool | Int | String_ | Struct | Interface | Slice | Map | Chan | Ptr | Func.

#[global] Instance Kind_eq_dec : EqDecision Kind.
Proof. solve_decision. Defined.

(** [reflect.Type].  [TNamed k n] is a predeclared or defined type of
    kind [k] whose [String()] is [n] (["string"], ["context.Context"],
    ["bus_test.GetUserQuery"]); [TPtr t] is [*t]; [TFunc ins outs] is the
    (non-variadic) function type [func(ins) outs]. *)
#[warnings="-register-all"]
Inductive rtype :=
  | TNamed (k : Kind) (name : string)
  | TPtr (elem : rtype)
  | TFunc (ins outs : list rtype).

Lemma rtype_eq_dec : ∀ a b : rtype, {a = b} + {a ≠ b}.
Proof.
  fix IH 1. intros a b.
  decide equality;
    first [ apply IH | exact (List.list_eq_dec IH _ _)
          | exact (String.string_dec _ _) | exact (Kind_eq_dec _ _) ].
Defined.

#[global] Instance rtype_eq : EqDecision rtype := rtype_eq_dec.

(** [Type.Kind()] *)
Definition kind (t : rtype) : Kind :=
  match t with
  | TNamed k _ => k
  | TPtr _ => Ptr
  | TFunc _ _ => Func
  end.

(** [strings.Join(l, ", ")] *)
Fixpoint join (l : list string) : string :=
  match l with
  | [] => EmptyString
  | [s] => s
  | s :: rest => s +:+ ", " +:+ join rest
  end.

(** [Type.String()]: a pointer type prints as [*] followed by its element
    type, a function type as [func(A, B) R] or [func(A, B) (R, S)]. *)
Fixpoint type_String (t : rtype) : string :=
  match t with
  | TNamed _ n => n
  | TPtr e => "*" +:+ type_String e
  | TFunc ins outs =>
      let args := "func(" +:+ join (map type_String ins) +:+ ")" in
      match outs with
      | [] => args
      | [o] => args +:+ " " +:+ type_String o
      | _ => args +:+ " (" +:+ join (map type_String outs) +:+ ")"
      end
  end.

(** [Type.NumIn()] and [Type.In(i)].  Both panic in Go when the type is
    not a function type or [i] is out of range; the bus calls them only
    after [validateHandler] has excluded that, and [In] returns [None]
    in those cases. *)
Definition NumIn (t : rtype) : nat :=
  match t with TFunc ins _ => length ins | _ => 0%nat end.

Definition In (t : rtype) (i : nat) : option rtype :=
  match t with TFunc ins _ => ins !! i | _ => None end.

Definition NumOut (t : rtype) : nat :=
  match t with TFunc _ outs => length outs | _ => 0%nat end.

(** The interface type [context.Context]. *)
Definition contextT : rtype := TNamed Interface "context.Context".

(** The predeclared interface type [error]. *)
Definition errorT : rtype := TNamed Interface "error".

End Reflect.

Import Reflect.

(** ** Values, errors and panics *)

(** An [error] value made by [errors.New] or [fmt.Errorf]; [Error] is its
    message. *)
Record error := errors_New { Error : string }.

(** [fmt.Errorf("'%s' is not a function", typeOf)] *)
Definition fmt_Errorf_not_a_function (typeOf : rtype) : error :=
  errors_New ("'" +:+ type_String typeOf +:+ "' is not a function").

(** What a panic carries: the value given to [panic], or the run-time
    error raised by the Go runtime or by package [reflect]. *)
Inductive panic :=
  | PanicValue (e : error)
  | NilDereference
  | IndexOutOfRange (index len : nat)
  | TypeAssertionFailed
  | CallNilFunction
  | CallTooFewArguments
  | CallTooManyArguments
  | CallZeroValue
  | CallNotAssignable (arg : nat).

(** How a call of a function with result type [error] ends: it returns
    ([None] is the nil error); it panics; it never returns because it
    waits for ever, on a channel nobody will serve or on a lock nobody
    will release; or the process ends under it. *)
Inductive outcome :=
  | Returns (err : option error)
  | Panics (p : panic)
  | Blocks
  | Exits.

#[global] Instance error_eq_dec : EqDecision error.
Proof. solve_decision. Defined.

#[global] Instance panic_eq_dec : EqDecision panic.
Proof. solve_decision. Defined.

#[global] Instance outcome_eq_dec : EqDecision outcome.
Proof. solve_decision. Defined.

(** A non-zero [reflect.Value]: the dynamic type of the value and the
    data it refers to. *)
Record datum := { d_type : rtype; d_ptr : nat }.

(** One result of a function called through [reflect]: only what
    [result[0].Interface()] and the assertion [err.(error)] look at is
    kept.  [RNil] is a nil interface value, [RError e] a non-nil value
    that implements [error], [ROther d] a non-nil value that does not. *)
Inductive retval :=
  | RNil
  | RError (e : error)
  | ROther (d : datum).

(** A non-nil [context.Context], identified by a number. *)
Definition Context := nat.

(** The code of a function value of two parameters: given the context
    and the message it returns its [i]-th result.  Handlers are taken to
    be user code that terminates and does not call back into the bus. *)
Definition code := Context → datum → nat → retval.

(** A non-nil [interface{}] value: its dynamic type, its data and, for a
    non-nil function, its code ([None] for every other value, a nil
    function included). *)
Record value := { v_type : rtype; v_ptr : nat; v_code : option code }.

(** [interface{}]: [None] is the nil interface. *)
Definition iface := option value.

(** [type Message interface{}] *)
Definition Message := iface.

(** [reflect.TypeOf]: nil for the nil interface. *)
Definition TypeOf (i : iface) : option rtype := v_type <$> i.

(** [reflect.ValueOf] of a non-nil interface value. *)
Definition ValueOf (v : value) : datum :=
  {| d_type := v_type v; d_ptr := v_ptr v |}.

(** The slice [params] of [Publish]: always the two elements
    [reflect.ValueOf(ctx)] and [reflect.ValueOf(msg)].  [p_ctx] is [None]
    (the zero [reflect.Value]) when [ctx] is nil; [msg] is known not to
    be nil where [params] is built. *)
Record params := { p_ctx : option Context; p_msg : datum }.

(** [Value.Call(params)] for a two-element [params], with the checks of
    package [reflect] in their order: the function must not be nil, the
    number of arguments must be the number of parameters, no argument may
    be the zero [Value], and each argument must be assignable to its
    parameter.  A context is assignable to [context.Context]; a message
    is assignable to a parameter of its own type.  On success the
    function runs and its [NumOut] results are returned. *)
Definition Call (f : value) (p : params) : list retval + panic :=
  match v_code f with
  | None => inr CallNilFunction
  | Some run =>
      if bool_decide (2 < NumIn (v_type f))%nat then inr CallTooFewArguments
      else if bool_decide (NumIn (v_type f) < 2)%nat then inr CallTooManyArguments
      else match p_ctx p with
           | None => inr CallZeroValue
           | Some ctx =>
               if bool_decide (In (v_type f) 0 ≠ Some contextT)
               then inr (CallNotAssignable 0)
               else if bool_decide (In (v_type f) 1 ≠ Some (d_type (p_msg p)))
               then inr (CallNotAssignable 1)
               else inl (run ctx (p_msg p) <$> seq 0 (NumOut (v_type f)))
           end
  end.

(** ** Channels, goroutines and the trace *)

(** What the bus does that a caller or a test can observe: [Publish] put
    [p] on channel [q]; [Publish] ran the handler [f] (the [v_ptr] of
    the function) on [p]; the goroutine that serves channel [q] took [p]
    from it and ran the handler [f] on it; that goroutine took [p] and
    its [Call] panicked, which in Go ends the process. *)
Inductive event :=
  | EvSend (q : nat) (p : params)
  | EvCall (f : nat) (p : params)
  | EvWorkerCall (q : nat) (f : nat) (p : params)
  | EvWorkerPanic (q : nat) (p : params) (pn : panic).

(** A channel made by [subscribe], [make(chan []reflect.Value, cap)],
    together with the one goroutine that ranges over it: [receiver] is
    the function that goroutine calls on every element, [buf] the
    elements sent and not yet taken. *)
Record channel := { cap : Z; buf : list params; receiver : value }.

(** The part of the process outside the bus struct, between two calls:
    the channels, in the order they were made (a channel is referred to
    by its position); the events so far, oldest first; [locked]: a
    goroutine of [Iter] waits in [c <- item] for a receiver that has
    gone, and so keeps the lock of the registry for ever; [exited]: a
    goroutine has panicked and the process has ended. *)
Record world := { chans : list channel; trace : list event;
                  locked : bool; exited : bool }.

Definition log (ev : event) (w : world) : world :=
  {| chans := chans w; trace := trace w ++ [ev];
     locked := locked w; exited := exited w |}.

(** The buffer of channel [q], which was [c], becomes [b]. *)
Definition set_buf (q : nat) (c : channel) (b : list params) (w : world) : world :=
  {| chans := <[q := {| cap := cap c; buf := b; receiver := receiver c |}]> (chans w);
     trace := trace w; locked := locked w; exited := exited w |}.

(** A panic nobody recovers ends the process. *)
Definition exit (w : world) : world :=
  {| chans := chans w; trace := trace w; locked := locked w; exited := true |}.

(** One turn of the goroutine of [subscribe],
    [for params := range handler.queue { handler.Handler.Call(params) }]:
    it takes the oldest element of channel [q] and calls the handler with
    it; whatever the handler returns is dropped.  The goroutine has no
    [recover]: when [Call] panics the process ends, and nothing follows.
    Without a pending element the goroutine waits. *)
Definition worker_step (q : nat) (w : world) : world :=
  if exited w then w
  else match chans w !! q with
       | Some c =>
           match buf c with
           | p :: rest =>
               match Call (receiver c) p with
               | inl _ => log (EvWorkerCall q (v_ptr (receiver c)) p) (set_buf q c rest w)
               | inr pn => exit (log (EvWorkerPanic q p pn) (set_buf q c rest w))
               end
           | [] => w
           end
       | None => w
       end.

(** The goroutine of channel [q] runs until the channel is empty. *)
Fixpoint drain (n : nat) (q : nat) (w : world) : world :=
  match n with
  | O => w
  | S n' => drain n' q (worker_step q w)
  end.

Definition pending (q : nat) (w : world) : list params :=
  match chans w !! q with Some c => buf c | None => [] end.

Definition run_worker (q : nat) (w : world) : world :=
  drain (length (pending q w)) q w.

(** [queue <- params], with the way the statement ends when it does not
    complete.  A send on a nil channel blocks for ever.  A send on a
    full channel blocks until the receiving goroutine has taken an
    element, so the goroutine takes its turn first; when that turn ends
    the process, the send never completes. *)
Definition send (queue : option nat) (p : params) (w : world)
  : world * option outcome :=
  match queue with
  | None => (w, Some Blocks)
  | Some q =>
      match chans w !! q with
      | None => (w, Some Blocks)
      | Some c =>
          let w1 := if bool_decide (Z.of_nat (length (buf c)) < cap c) then w
                    else worker_step q w in
          if exited w1 then (w1, Some Exits)
          else match chans w1 !! q with
               | None => (w1, Some Blocks)
               | Some c1 => (log (EvSend q p) (set_buf q c1 (buf c1 ++ [p]) w1), None)
               end
      end
  end.

(** ** The handler registry *)

(** [type handler struct]: [queue] is [None] for the nil channel of a
    synchronous handler. *)
Record handler := { Handler : value; isAsync : bool; queue : option nat }.

(** [type handlers struct]: the map of the registry.  Of its
    [sync.RWMutex] the calls that come one after the other see one
    thing, [locked] of the world; [Module Locking] models the rest. *)
Record handlers := { items : gmap string (list handler) }.

(** [type handlerItem struct] *)
Record handlerItem := { Key : string; Value : list handler }.

Definition newHandlers : handlers := {| items := ∅ |}.

(** [cm.items[key] = append(cm.items[key], value)]: a missing key reads
    as the nil slice. *)
Definition Add (key : string) (v : handler) (cm : handlers) : handlers :=
  {| items := <[key := (default [] (items cm !! key) ++ [v])%list]> (items cm) |}.

(** [value, ok := cm.items[key]] *)
Definition Get (key : string) (cm : handlers) : list handler * bool :=
  match items cm !! key with
  | Some v => (v, true)
  | None => ([], false)
  end.

(** [Iter] streams every entry of the map through a channel; the receiver
    sees them one after the other, in an order Go leaves open. *)
Definition Iter (cm : handlers) : list handlerItem :=
  (λ kv, {| Key := kv.1; Value := kv.2 |}) <$> map_to_list (items cm).

(** The order in which one [range cm.items] goes through the map.  Go
    leaves it open, and it may change from one [range] to the next: a
    loop over [Iter()] sees the entries rearranged by an [order], and
    the properties hold for every order. *)
Record order := { permute : list handlerItem → list handlerItem;
                  permute_perm : ∀ its, permute its ≡ₚ its }.

Definition in_order : order :=
  {| permute := λ its, its; permute_perm := λ its, Permutation_refl its |}.

Definition reversed : order :=
  {| permute := reverse; permute_perm := reverse_Permutation |}.

(** A loop [for messageHandlers := range e.handlers.Iter()] is left
    before its end, by a [return], by a panic, or because the caller
    never gets further, while the goroutine of [Iter] has [rest] still
    to send.  When [rest] is empty that goroutine closes the channel and
    unlocks.  Otherwise it stays in [c <- item], nobody else having the
    channel, and its deferred [cm.Unlock()] never runs. *)
Definition abandon (rest : list handlerItem) (w : world) : world :=
  match rest with
  | [] => w
  | _ :: _ => {| chans := chans w; trace := trace w;
                 locked := true; exited := exited w |}
  end.

(** ** The bus *)

Definition defaultAsyncHandlerQueueSize : Z := 1000.

Definition ErrHandlerNotFound : error := errors_New "handler not found".

(** [type eventBus struct]; the field [handlers] is [bus_handlers]. *)
Record eventBus := { bus_handlers : handlers; queueSize : Z }.

(** [New(queueSize ...int)] *)
Definition New (queueSize : list Z) : eventBus :=
  let size := match queueSize with
              | q0 :: _ => q0
              | [] => defaultAsyncHandlerQueueSize
              end in
  {| bus_handlers := newHandlers; queueSize := size |}.

(** [validateHandler].  [reflect.TypeOf(nil)] is the nil [Type], on which
    [Kind()] is a nil dereference. *)
Definition validateHandler (fn : iface) : outcome :=
  match TypeOf fn with
  | None => Panics NilDereference
  | Some typeOf =>
      if bool_decide (kind typeOf ≠ Func)
      then Returns (Some (fmt_Errorf_not_a_function typeOf))
      else if bool_decide (NumIn typeOf < 2)%nat
      then Returns (Some (errors_New
             "invalid number of handler arguments. Must be context.Context followed by a struct"))
      else match In typeOf 0 with
           | None => Panics (IndexOutOfRange 0 (NumIn typeOf))
           | Some in0 =>
               if bool_decide (type_String in0 ≠ "context.Context")
               then Returns (Some (errors_New "first argument must be context.Context"))
               else Returns None
           end
  end.

(** [make(chan []reflect.Value, n)] followed by the [go] statement of
    [subscribe]: the new channel is the last one of the world and [fn] is
    what its goroutine calls. *)
Definition make_queue (n : Z) (fn : value) (w : world) : nat * world :=
  (length (chans w),
   {| chans := chans w ++ [{| cap := n; buf := []; receiver := fn |}];
      trace := trace w; locked := locked w; exited := exited w |}).

(** [eventBus.subscribe].  The channel is made and its goroutine started
    before [e.handlers.Add]; [Add] begins with [cm.Lock()], where the
    call waits for ever when the lock is kept. *)
Definition subscribe (e : eventBus) (fn : iface) (async : bool) (w : world)
  : eventBus * world * outcome :=
  match validateHandler fn with
  | Returns None =>
      match fn with
      | None => (e, w, Panics NilDereference)
      | Some f =>
          match In (v_type f) 1 with
          | None => (e, w, Panics (IndexOutOfRange 1 (NumIn (v_type f))))
          | Some in1 =>
              let handlerArgTypeName := type_String in1 in
              let '(q, w') :=
                if async
                then let '(q, w') := make_queue defaultAsyncHandlerQueueSize f w in
                     (Some q, w')
                else (None, w) in
              let h := {| Handler := f; isAsync := async; queue := q |} in
              if locked w' then (e, w', Blocks)
              else ({| bus_handlers := Add handlerArgTypeName h (bus_handlers e);
                       queueSize := queueSize e |}, w', Returns None)
          end
      end
  | err => (e, w, err)
  end.

Definition Subscribe (e : eventBus) (fn : iface) (w : world) :=
  subscribe e fn false w.

Definition SubscribeAsync (e : eventBus) (fn : iface) (w : world) :=
  subscribe e fn true w.

(** [if err := e.subscribe(fn, isAsync); err != nil { panic(err) }] *)
Definition must (r : eventBus * world * outcome) : eventBus * world * outcome :=
  match r with
  | (e, w, Returns (Some err)) => (e, w, Panics (PanicValue err))
  | r => r
  end.

Definition MustSubscribe (e : eventBus) (fn : iface) (w : world) :=
  must (subscribe e fn false w).

Definition MustSubscribeAsync (e : eventBus) (fn : iface) (w : world) :=
  must (subscribe e fn true w).

(** The inner loop of the first phase of [Publish]:
    [for _, handler := range messageHandlers.Value { if handler.isAsync
    { handler.queue <- params } }].  [Some o]: a send does not complete
    and [Publish] never gets further; [None]: the loop ran to its end. *)
Fixpoint send_async (hs : list handler) (p : params) (w : world)
  : world * option outcome :=
  match hs with
  | [] => (w, None)
  | h :: rest =>
      if isAsync h
      then match send (queue h) p w with
           | (w', None) => send_async rest p w'
           | r => r
           end
      else send_async rest p w
  end.

(** The first loop of [Publish] over [Iter()], the entries coming as
    [its]. *)
Fixpoint dispatch_async (its : list handlerItem) (msgTypeName : string)
    (p : params) (w : world) : world * option outcome :=
  match its with
  | [] => (w, None)
  | messageHandlers :: rest =>
      if bool_decide (Key messageHandlers = msgTypeName)
      then match send_async (Value messageHandlers) p w with
           | (w', None) => dispatch_async rest msgTypeName p w'
           | (w', Some o) => (abandon rest w', Some o)
           end
      else dispatch_async rest msgTypeName p w
  end.

(** The inner loop of the second phase.  [Some o]: [Publish] leaves the
    loop with [o], either by [return err.(error)] or by a panic of
    [Call], of [result[0]] or of the type assertion; [None]: the loop ran
    to its end. *)
Fixpoint call_sync (hs : list handler) (p : params) (w : world)
  : world * option outcome :=
  match hs with
  | [] => (w, None)
  | h :: rest =>
      let isSync := negb (isAsync h) in
      if isSync
      then match Call (Handler h) p with
           | inr pn => (w, Some (Panics pn))
           | inl result =>
               let w' := log (EvCall (v_ptr (Handler h)) p) w in
               match result !! 0%nat with
               | None => (w', Some (Panics (IndexOutOfRange 0 (length result))))
               | Some RNil => call_sync rest p w'
               | Some (RError err) => (w', Some (Returns (Some err)))
               | Some (ROther _) => (w', Some (Panics TypeAssertionFailed))
               end
           end
      else call_sync rest p w
  end.

(** The second loop of [Publish] over [Iter()], the entries coming as
    [its].  A [return] or a panic inside the loop leaves the goroutine
    of [Iter] with the entries that have not come yet. *)
Fixpoint dispatch_sync (its : list handlerItem) (msgTypeName : string)
    (p : params) (w : world) : world * option outcome :=
  match its with
  | [] => (w, None)
  | messageHandlers :: rest =>
      if bool_decide (Key messageHandlers = msgTypeName)
      then match call_sync (Value messageHandlers) p w with
           | (w', None) => dispatch_sync rest msgTypeName p w'
           | (w', Some o) => (abandon rest w', Some o)
           end
      else dispatch_sync rest msgTypeName p w
  end.

(** [eventBus.Publish]; [o1] and [o2] are the orders of its two loops
    over [Iter()].  [reflect.TypeOf(msg).String()] is a nil dereference
    for a nil message.  [e.handlers.Get] begins with [cm.Lock()], where
    the call waits for ever when the lock is kept. *)
Definition Publish (e : eventBus) (ctx : option Context) (msg : Message)
    (o1 o2 : order) (w : world) : world * outcome :=
  match msg with
  | None => (w, Panics NilDereference)
  | Some m =>
      let msgTypeName := type_String (v_type m) in
      if locked w then (w, Blocks)
      else
        let '(_, ok) := Get msgTypeName (bus_handlers e) in
        if negb ok then (w, Returns (Some ErrHandlerNotFound))
        else
          let params := {| p_ctx := ctx; p_msg := ValueOf m |} in
          match dispatch_async (permute o1 (Iter (bus_handlers e))) msgTypeName params w with
          | (w1, Some o) => (w1, o)
          | (w1, None) =>
              match dispatch_sync (permute o2 (Iter (bus_handlers e))) msgTypeName params w1 with
              | (w2, Some o) => (w2, o)
              | (w2, None) => (w2, Returns None)
              end
          end
  end.

(** The process at its start: no channel, nothing has happened, the
    lock is free. *)
Definition world0 : world :=
  {| chans := []; trace := []; locked := false; exited := false |}.

(** ** Histories

    Everything a program can do with a bus, one call after the other:
    subscribe a handler, publish a message, let the goroutine of a
    channel take its turn.  A call that waits for ever stays where it
    is and the history goes on with the calls of other goroutines; once
    the process has ended nothing happens any more.  A state of the bus
    is reachable when a history leads to it from [New]. *)
Inductive op :=
  | Sub (fn : iface) (async : bool)
  | Pub (ctx : option Context) (msg : Message) (o1 o2 : order)
  | Work (q : nat).

Definition step (s : eventBus * world) (o : op) : eventBus * world :=
  if exited s.2 then s
  else match o with
       | Sub fn async => (subscribe s.1 fn async s.2).1
       | Pub ctx msg o1 o2 => (s.1, (Publish s.1 ctx msg o1 o2 s.2).1)
       | Work q => (s.1, worker_step q s.2)
       end.

Definition run (ops : list op) (s : eventBus * world) : eventBus * world :=
  foldl step s ops.

Definition reachable (e : eventBus) (w : world) : Prop :=
  ∃ queueSize ops, run ops (New queueSize, world0) = (e, w).

(** The process runs and the lock of the registry is not kept: a call
    that asks for the lock gets it. *)
Definition live (w : world) : Prop := exited w = false ∧ locked w = false.

(** The routing key a function is registered under: the [String()] of
    its second parameter. *)
Definition handler_key (f : value) : option string :=
  type_String <$> In (v_type f) 1.

(** What a step of a history registers under [key]: the function and
    its [isAsync] flag, when [subscribe] accepts it and it has that key. *)
Definition registration (key : string) (o : op) : option (value * bool) :=
  match o with
  | Sub (Some f) async =>
      if bool_decide (validateHandler (Some f) = Returns None
                      ∧ handler_key f = Some key)
      then Some (f, async) else None
  | _ => None
  end.

Definition registrations (key : string) (ops : list op) : list (value * bool) :=
  omap (registration key) ops.

(** The functions a history has registered with success under [key] as
    synchronous ([async = false]) or asynchronous handlers, oldest
    first. *)
Definition registered (async : bool) (key : string) (ops : list op) : list value :=
  (filter (λ r, r.2 = async) (registrations key ops)).*1.

(** ** The vocabulary of the properties

    What the statements below talk about: the wiring of the channels,
    the invariant of a bus, the registrations of a history as the
    registry holds them, the calls and sends of a trace, and the
    handlers and messages of the test suite. *)

(** The handler [subscribe] files for an accepted function [f] in the
    world [w], and the world it leaves. *)
Definition new_handler (f : value) (async : bool) (w : world) : handler :=
  {| Handler := f; isAsync := async;
     queue := if async then Some (length (chans w)) else None |}.

Definition new_world (f : value) (async : bool) (w : world) : world :=
  if async then (make_queue defaultAsyncHandlerQueueSize f w).2 else w.

(** The capacity and the receiving function of every channel.  Sends and
    turns of the goroutines change buffers and the trace, never this. *)
Definition wiring (w : world) : list (Z * value) :=
  (λ c, (cap c, receiver c)) <$> chans w.

(** A registered handler is sound: [validateHandler] accepts its
    function, it is filed under the key of that function, and it has a
    channel exactly when it is asynchronous, made with the default
    capacity and served by a goroutine that calls this very function. *)
Definition handler_ok (key : string) (wires : list (Z * value)) (h : handler) : Prop :=
  validateHandler (Some (Handler h)) = Returns None ∧
  handler_key (Handler h) = Some key ∧
  match queue h with
  | Some q => isAsync h = true
              ∧ wires !! q = Some (defaultAsyncHandlerQueueSize, Handler h)
  | None => isAsync h = false
  end.

(** The invariant: no key of the map has an empty slice, and every
    handler is sound in the wiring of the world. *)
Definition bus_ok (e : eventBus) (w : world) : Prop :=
  ∀ key hs, items (bus_handlers e) !! key = Some hs →
    hs ≠ [] ∧ Forall (handler_ok key (wiring w)) hs.

(** The functions filed under [key], each with its [isAsync] flag, in the
    order of the slice. *)
Definition entries (key : string) (e : eventBus) : list (value * bool) :=
  (λ h, (Handler h, isAsync h)) <$> default [] (items (bus_handlers e) !! key).

(** The functions of the handlers of a slice that are synchronous
    ([async = false]) or asynchronous. *)
Definition fns (async : bool) (hs : list handler) : list value :=
  (filter (λ r, r.2 = async) ((λ h, (Handler h, isAsync h)) <$> hs)).*1.

(** What a handler answers when [Publish] calls it with [p]: [Some None]
    when the call goes through and its first result is nil,
    [Some (Some err)] when it is the error [err]; [None] when [Publish]
    would panic on the call or on its result. *)
Definition reply (f : value) (p : params) : option (option error) :=
  match Call f p with
  | inl (RNil :: _) => Some None
  | inl (RError err :: _) => Some (Some err)
  | _ => None
  end.

(** The calls of synchronous handlers in a trace: which function, with
    which parameters. *)
Definition calls (tr : list event) : list (nat * params) :=
  omap (λ ev, match ev with EvCall f p => Some (f, p) | _ => None end) tr.

(** The sends in a trace: on which channel, which parameters. *)
Definition sends (tr : list event) : list (nat * params) :=
  omap (λ ev, match ev with EvSend q p => Some (q, p) | _ => None end) tr.

(** The world after [Publish] has called the functions [fs] with [p]. *)
Definition called (fs : list value) (p : params) (w : world) : world :=
  {| chans := chans w; trace := trace w ++ ((λ f, EvCall (v_ptr f) p) <$> fs);
     locked := locked w; exited := exited w |}.

(** The result of the second phase, read off the synchronous functions
    alone: the first of them that does not answer nil decides. *)
Fixpoint sync_outcome (fs : list value) (p : params) : outcome :=
  match fs with
  | [] => Returns None
  | f :: rest =>
      match Call f p with
      | inr pn => Panics pn
      | inl result =>
          match result !! 0%nat with
          | None => Panics (IndexOutOfRange 0 (length result))
          | Some RNil => sync_outcome rest p
          | Some (RError err) => Returns (Some err)
          | Some (ROther _) => Panics TypeAssertionFailed
          end
      end
  end.

(** The entries that come after the entry of [key] in an enumeration:
    what the goroutine of [Iter] has still to send when the loop is at
    that entry. *)
Fixpoint behind (key : string) (its : list handlerItem) : list handlerItem :=
  match its with
  | [] => []
  | it :: rest => if bool_decide (Key it = key) then rest else behind key rest
  end.

(** [type GetUserQuery struct] of package [bus_test]; the tests publish
    [&query], of type [*GetUserQuery]. *)
Definition GetUserQuery : rtype := TNamed Struct "bus_test.GetUserQuery".

(** [&query], for [query := GetUserQuery{ID: "1234"}] *)
Definition query : value :=
  {| v_type := TPtr GetUserQuery; v_ptr := 1234; v_code := None |}.

(** [func(ctx context.Context, query *GetUserQuery) error { return nil }] *)
Definition handler_nil (id : nat) : value :=
  {| v_type := TFunc [contextT; TPtr GetUserQuery] [errorT]; v_ptr := id;
     v_code := Some (λ _ _ _, RNil) |}.

(** [func(ctx context.Context, query *GetUserQuery) error
       { return errors.New(text) }] *)
Definition handler_failing (id : nat) (text : string) : value :=
  {| v_type := TFunc [contextT; TPtr GetUserQuery] [errorT]; v_ptr := id;
     v_code := Some (λ _ _ _, RError (errors_New text)) |}.

(** [func(ctx context.Context, query *GetUserQuery) {}], the handler
    without a result of the README and of the case ["success"] of
    [TestBus_InvalidHandler]. *)
Definition handler_void (id : nat) : value :=
  {| v_type := TFunc [contextT; TPtr GetUserQuery] []; v_ptr := id;
     v_code := Some (λ _ _ _, RNil) |}.

(** [context.Background()] *)
Definition background : Context := 0%nat.

(** [params] for [Publish(context.Background(), &query)]. *)
Definition query_params : params :=
  {| p_ctx := Some background; p_msg := ValueOf query |}.

(** The history of [TestBus_MultipleSyncHandlers_PreventsFutureHandlersOnError],
    with a handler that succeeds in front. *)
Definition ops_chain : list op :=
  [Sub (Some (handler_nil 1)) false;
   Sub (Some (handler_failing 2 "some error")) false;
   Sub (Some (handler_nil 3)) false].

(** The case ["not a function"] of [TestBus_InvalidHandler], through
    [MustSubscribe]. *)
Definition not_a_func : value :=
  {| v_type := TNamed String_ "string"; v_ptr := 0; v_code := None |}.

(** A handler for [*GetUserQuery] and a [GetUserQuery] published by
    value. *)
Definition query_by_value : value :=
  {| v_type := GetUserQuery; v_ptr := 1234; v_code := None |}.

(** [TestBus_SyncAndAsyncHandlers_CallsAsyncWhenSyncFails]: a failing
    synchronous handler and an asynchronous handler for the same type. *)
Definition ops_mixed : list op :=
  [Sub (Some (handler_failing 1 "some error")) false;
   Sub (Some (handler_void 2)) true].

(** A registry with handlers for two types. *)
Definition SomeCommand : rtype := TNamed Struct "bus_test.SomeCommand".

Definition handler_command (id : nat) : value :=
  {| v_type := TFunc [contextT; SomeCommand] [errorT]; v_ptr := id;
     v_code := Some (λ _ _ _, RNil) |}.

Definition ops_two_types : list op :=
  [Sub (Some (handler_failing 1 "some error")) false;
   Sub (Some (handler_command 2)) false].

Definition registry2 : handlers :=
  bus_handlers (run ops_two_types (New [], world0)).1.

(** ** The registry: [Add], [Get] and the loops over [Iter] *)

Section Registry.
Implicit Types (cm : handlers) (key : string) (h : handler) (hs : list handler).

Lemma Get_Add_eq key h cm :
  Get key (Add key h cm) = ((default [] (items cm !! key) ++ [h])%list, true).
Proof. unfold Get, Add; simpl. by rewrite lookup_insert_eq. Qed.

Lemma items_Add_ne key key' h cm :
  key ≠ key' → items (Add key h cm) !! key' = items cm !! key'.
Proof. intros Hne. unfold Add; simpl. by rewrite lookup_insert_ne. Qed.

Lemma items_Add_eq key h cm :
  items (Add key h cm) !! key = Some (default [] (items cm !! key) ++ [h])%list.
Proof. unfold Add; simpl. by rewrite lookup_insert_eq. Qed.

(** The entries [Iter] yields are those of the map, each key once. *)
Lemma Iter_keys_NoDup cm : NoDup (Key <$> Iter cm).
Proof.
  unfold Iter. rewrite <- list_fmap_compose.
  apply (NoDup_fst_map_to_list (items cm)).
Qed.

Lemma elem_of_Iter cm key hs :
  {| Key := key; Value := hs |} ∈ Iter cm ↔ items cm !! key = Some hs.
Proof.
  unfold Iter. rewrite list_elem_of_fmap. split.
  - intros [[k v] [Heq Hin]]. simpl in Heq. inversion Heq; subst.
    by apply elem_of_map_to_list in Hin.
  - intros Hl. exists (key, hs). split; [done|]. by apply elem_of_map_to_list.
Qed.

Lemma Iter_key_absent cm key :
  items cm !! key = None → key ∉ Key <$> Iter cm.
Proof.
  intros Hnone Hin. apply list_elem_of_fmap in Hin as [[k v] [-> Hin]].
  apply elem_of_Iter in Hin. simpl in *. congruence.
Qed.

(** So are the entries of a loop over [Iter], whatever its order. *)
Lemma permute_keys_NoDup o cm : NoDup (Key <$> permute o (Iter cm)).
Proof. rewrite (permute_perm o). apply Iter_keys_NoDup. Qed.

Lemma elem_of_permute o cm key hs :
  {| Key := key; Value := hs |} ∈ permute o (Iter cm) ↔ items cm !! key = Some hs.
Proof. rewrite (permute_perm o). apply elem_of_Iter. Qed.

Lemma permute_key_absent o cm key :
  items cm !! key = None → key ∉ Key <$> permute o (Iter cm).
Proof. rewrite (permute_perm o). apply Iter_key_absent. Qed.

(** A loop over entries none of which has the key does nothing. *)
Lemma dispatch_async_absent its key p w :
  key ∉ Key <$> its → dispatch_async its key p w = (w, None).
Proof.
  induction its as [|it its IH]; intros Hnin; simpl; [done|].
  rewrite fmap_cons, not_elem_of_cons in Hnin. destruct Hnin as [Hne Hnin].
  rewrite bool_decide_eq_false_2 by congruence. auto.
Qed.

Lemma dispatch_sync_absent its key p w :
  key ∉ Key <$> its → dispatch_sync its key p w = (w, None).
Proof.
  induction its as [|it its IH]; intros Hnin; simpl; [done|].
  rewrite fmap_cons, not_elem_of_cons in Hnin. destruct Hnin as [Hne Hnin].
  rewrite bool_decide_eq_false_2 by congruence. auto.
Qed.

(** Keys are unique, so the loop over all entries is the inner loop
    over the one entry of the key, wherever it comes; where it comes
    decides what is left behind when the loop is left early. *)
Lemma dispatch_async_unique its key hs p w :
  NoDup (Key <$> its) → {| Key := key; Value := hs |} ∈ its →
  dispatch_async its key p w =
    match send_async hs p w with
    | (w', Some o) => (abandon (behind key its) w', Some o)
    | r => r
    end.
Proof.
  induction its as [|it its IH]; intros Hnd Hin; [by apply elem_of_nil in Hin|].
  rewrite fmap_cons in Hnd. apply NoDup_cons in Hnd as [Hfresh Hnd].
  apply elem_of_cons in Hin as [<-|Hin]; simpl.
  - rewrite !bool_decide_eq_true_2 by done.
    destruct (send_async hs p w) as [w' [o|]]; [done|].
    by apply dispatch_async_absent.
  - assert (Key it ≠ key) as Hne.
    { intros Heq. apply Hfresh. rewrite Heq.
      apply list_elem_of_fmap. by exists {| Key := key; Value := hs |}. }
    rewrite !bool_decide_eq_false_2 by done. by apply IH.
Qed.

Lemma dispatch_sync_unique its key hs p w :
  NoDup (Key <$> its) → {| Key := key; Value := hs |} ∈ its →
  dispatch_sync its key p w =
    match call_sync hs p w with
    | (w', Some o) => (abandon (behind key its) w', Some o)
    | r => r
    end.
Proof.
  induction its as [|it its IH]; intros Hnd Hin; [by apply elem_of_nil in Hin|].
  rewrite fmap_cons in Hnd. apply NoDup_cons in Hnd as [Hfresh Hnd].
  apply elem_of_cons in Hin as [<-|Hin]; simpl.
  - rewrite !bool_decide_eq_true_2 by done.
    destruct (call_sync hs p w) as [w' [o|]]; [done|].
    by apply dispatch_sync_absent.
  - assert (Key it ≠ key) as Hne.
    { intros Heq. apply Hfresh. rewrite Heq.
      apply list_elem_of_fmap. by exists {| Key := key; Value := hs |}. }
    rewrite !bool_decide_eq_false_2 by done. by apply IH.
Qed.

Lemma dispatch_async_Iter o cm key hs p w :
  items cm !! key = Some hs →
  dispatch_async (permute o (Iter cm)) key p w =
    match send_async hs p w with
    | (w', Some r) => (abandon (behind key (permute o (Iter cm))) w', Some r)
    | r => r
    end.
Proof.
  intros Hl. apply dispatch_async_unique; [apply permute_keys_NoDup|].
  by apply elem_of_permute.
Qed.

Lemma dispatch_sync_Iter o cm key hs p w :
  items cm !! key = Some hs →
  dispatch_sync (permute o (Iter cm)) key p w =
    match call_sync hs p w with
    | (w', Some r) => (abandon (behind key (permute o (Iter cm))) w', Some r)
    | r => r
    end.
Proof.
  intros Hl. apply dispatch_sync_unique; [apply permute_keys_NoDup|].
  by apply elem_of_permute.
Qed.
End Registry.

(** [Publish] of a non-nil message whose key has the handlers [hs], the
    lock being free: the sends of the first phase, then the calls of the
    second; a phase that is left early leaves behind the entries that
    come after the entry of the key in its loop. *)
Lemma Publish_registered e ctx m o1 o2 w hs :
  items (bus_handlers e) !! type_String (v_type m) = Some hs →
  locked w = false →
  Publish e ctx (Some m) o1 o2 w =
    let key := type_String (v_type m) in
    let p := {| p_ctx := ctx; p_msg := ValueOf m |} in
    match send_async hs p w with
    | (w1, Some o) => (abandon (behind key (permute o1 (Iter (bus_handlers e)))) w1, o)
    | (w1, None) =>
        match call_sync hs p w1 with
        | (w2, Some o) =>
            (abandon (behind key (permute o2 (Iter (bus_handlers e)))) w2, o)
        | (w2, None) => (w2, Returns None)
        end
    end.
Proof.
  intros Hl Hfree. unfold Publish, Get. rewrite Hfree, Hl. simpl.
  rewrite (dispatch_async_Iter _ _ _ hs) by done.
  destruct (send_async hs _ w) as [w1 [o|]]; [done|].
  rewrite (dispatch_sync_Iter _ _ _ hs) by done.
  by destruct (call_sync hs _ w1) as [w2 [o|]].
Qed.

Lemma Publish_not_registered e ctx m o1 o2 w :
  items (bus_handlers e) !! type_String (v_type m) = None →
  locked w = false →
  Publish e ctx (Some m) o1 o2 w = (w, Returns (Some ErrHandlerNotFound)).
Proof. intros Hl Hfree. unfold Publish, Get. by rewrite Hfree, Hl. Qed.

(** With the lock kept, [Publish] of a non-nil message waits for ever in
    [Get] and nothing happens. *)
Lemma Publish_locked e ctx m o1 o2 w :
  locked w = true → Publish e ctx (Some m) o1 o2 w = (w, Blocks).
Proof. intros Hlocked. unfold Publish. by rewrite Hlocked. Qed.

(** ** What [validateHandler] accepts *)

Section Validation.
Implicit Types (f : value) (fn : iface).

Lemma validateHandler_nil : validateHandler None = Panics NilDereference.
Proof. reflexivity. Qed.

(** A non-nil argument is accepted exactly when it is a function of at
    least two parameters whose first parameter prints as
    [context.Context]. *)
Lemma validateHandler_accepts f :
  validateHandler (Some f) = Returns None ↔
  kind (v_type f) = Func ∧ (2 ≤ NumIn (v_type f))%nat ∧
  type_String <$> In (v_type f) 0 = Some "context.Context".
Proof.
  unfold validateHandler; simpl.
  destruct (v_type f) as [k n|t|ins outs]; simpl.
  - case_bool_decide as Hk; [|subst k; simpl].
    + split; [done|]. by intros [? _].
    + split; [done|]. intros (_ & ? & _). lia.
  - split; [done|]. by intros [? _].
  - case_bool_decide as Hn; [split; [done|intros (_ & ? & _); lia]|].
    destruct ins as [|in0 ins]; simpl in *; [lia|].
    case_bool_decide as Hs.
    + split; [done|]. intros (_ & _ & [=]). done.
    + rewrite Hs. split; [|done].
      intros _. split_and!; [done|lia|done].
Qed.

(** Any other non-nil argument gets an error back, never a panic. *)
Lemma validateHandler_returns f : ∃ err, validateHandler (Some f) = Returns err.
Proof.
  unfold validateHandler; simpl.
  case_bool_decide; [by eexists|].
  case_bool_decide as Hn; [by eexists|].
  destruct (In (v_type f) 0) as [in0|] eqn:Hin.
  - case_bool_decide; by eexists.
  - destruct (v_type f) as [| |ins outs]; simpl in *; try lia.
    apply lookup_ge_None in Hin. lia.
Qed.

Lemma accepted_has_key f :
  validateHandler (Some f) = Returns None → is_Some (handler_key f).
Proof.
  intros (Hk & Hn & _)%validateHandler_accepts. unfold handler_key.
  destruct (v_type f) as [| |ins outs]; simpl in *; try lia; try done.
  destruct (lookup_lt_is_Some_2 ins 1%nat) as [t Ht]; [lia|].
  rewrite Ht. by eexists.
Qed.
End Validation.

(** ** [subscribe], step by step *)

Lemma locked_new_world f async w : locked (new_world f async w) = locked w.
Proof. unfold new_world. by destruct async. Qed.

Lemma exited_new_world f async w : exited (new_world f async w) = exited w.
Proof. unfold new_world. by destruct async. Qed.

(** An accepted function: the channel is made, and the handler is filed
    unless the lock is kept. *)
Lemma subscribe_accepted e f async w key :
  validateHandler (Some f) = Returns None → handler_key f = Some key →
  subscribe e (Some f) async w =
    if locked w then (e, new_world f async w, Blocks)
    else ({| bus_handlers := Add key (new_handler f async w) (bus_handlers e);
             queueSize := queueSize e |}, new_world f async w, Returns None).
Proof.
  intros Hv Hk. unfold subscribe. rewrite Hv.
  unfold handler_key in Hk. destruct (In (v_type f) 1) as [in1|]; [|done].
  simpl in Hk. injection Hk as <-.
  unfold new_handler, new_world. destruct async; simpl; by destruct (locked w).
Qed.

Lemma subscribe_rejected e fn async w :
  validateHandler fn ≠ Returns None →
  subscribe e fn async w = (e, w, validateHandler fn).
Proof.
  intros Hv. unfold subscribe.
  destruct (validateHandler fn) as [[err|]|pn| |]; done.
Qed.

(** ** What the bus does to a world

    A property of worlds that a send, the record of a call and the
    abandoning of a goroutine of [Iter] keep is kept by [Publish]; if
    [make] with the default capacity and a turn of a goroutine keep it
    too, it is kept by every history. *)
Section Preserved.
Variable P : world → Prop.
Hypothesis P_send : ∀ queue p w, P w → P (send queue p w).1.
Hypothesis P_call : ∀ f p w, P w → P (log (EvCall f p) w).
Hypothesis P_abandon : ∀ rest w, P w → P (abandon rest w).

Lemma preserved_send_async hs p w : P w → P (send_async hs p w).1.
Proof.
  revert w. induction hs as [|h hs IH]; intros w HP; simpl; [done|].
  destruct (isAsync h); [|by apply IH].
  pose proof (P_send (queue h) p w HP) as HP1.
  destruct (send (queue h) p w) as [w1 [o|]]; [done|]. by apply IH.
Qed.

Lemma preserved_call_sync hs p w : P w → P (call_sync hs p w).1.
Proof.
  revert w. induction hs as [|h hs IH]; intros w HP; simpl; [done|].
  destruct (isAsync h); simpl; [by apply IH|].
  destruct (Call (Handler h) p) as [result|pn]; [|done].
  pose proof (P_call (v_ptr (Handler h)) p w HP) as HP1.
  destruct (result !! 0%nat) as [[| |]|]; try done. by apply IH.
Qed.

Lemma preserved_dispatch_async its key p w :
  P w → P (dispatch_async its key p w).1.
Proof.
  revert w. induction its as [|it its IH]; intros w HP; simpl; [done|].
  case_bool_decide; [|by apply IH].
  pose proof (preserved_send_async (Value it) p w HP) as HP1.
  destruct (send_async (Value it) p w) as [w1 [o|]]; simpl in *.
  - by apply P_abandon.
  - by apply IH.
Qed.

Lemma preserved_dispatch_sync its key p w :
  P w → P (dispatch_sync its key p w).1.
Proof.
  revert w. induction its as [|it its IH]; intros w HP; simpl; [done|].
  case_bool_decide; [|by apply IH].
  pose proof (preserved_call_sync (Value it) p w HP) as HP1.
  destruct (call_sync (Value it) p w) as [w1 [o|]]; simpl in *.
  - by apply P_abandon.
  - by apply IH.
Qed.

Lemma preserved_Publish e ctx msg o1 o2 w :
  P w → P (Publish e ctx msg o1 o2 w).1.
Proof.
  intros HP. destruct msg as [m|]; [|done]. unfold Publish.
  destruct (locked w); [done|].
  destruct (Get _ _) as [hs [|]]; simpl; [|done].
  set (p := {| p_ctx := ctx; p_msg := ValueOf m |}).
  pose proof (preserved_dispatch_async (permute o1 (Iter (bus_handlers e)))
                (type_String (v_type m)) p w HP) as HP1.
  destruct (dispatch_async _ _ p w) as [w1 [o|]]; [done|]. simpl in HP1.
  pose proof (preserved_dispatch_sync (permute o2 (Iter (bus_handlers e)))
                (type_String (v_type m)) p w1 HP1) as HP2.
  by destruct (dispatch_sync _ _ p w1) as [w2 [o|]].
Qed.

Lemma preserved_called fs p w : P w → P (called fs p w).
Proof.
  revert w. induction fs as [|f fs IH]; intros w HP.
  - replace (called [] p w) with w; [done|].
    unfold called. simpl. rewrite app_nil_r. by destruct w.
  - replace (called (f :: fs) p w) with (called fs p (log (EvCall (v_ptr f) p) w)).
    + apply IH. by apply P_call.
    + unfold called, log. simpl. by rewrite <- app_assoc.
Qed.

Hypothesis P_make : ∀ f w, P w → P (make_queue defaultAsyncHandlerQueueSize f w).2.
Hypothesis P_worker : ∀ q w, P w → P (worker_step q w).

Lemma preserved_subscribe e fn async w : P w → P (subscribe e fn async w).1.2.
Proof.
  intros HP.
  destruct (decide (validateHandler fn = Returns None)) as [Hv|Hv];
    [|by rewrite subscribe_rejected].
  destruct fn as [f|]; [|done].
  destruct (accepted_has_key f Hv) as [key Hk].
  rewrite (subscribe_accepted _ _ _ _ key) by done.
  assert (P (new_world f async w)) as HP1.
  { unfold new_world. destruct async; [by apply P_make|done]. }
  by destruct (locked w).
Qed.

Lemma preserved_step e w o : P w → P (step (e, w) o).2.
Proof.
  intros HP. unfold step. simpl. destruct (exited w); [done|].
  destruct o as [fn async|ctx msg o1 o2|q]; simpl.
  - by apply preserved_subscribe.
  - by apply preserved_Publish.
  - by apply P_worker.
Qed.

Lemma preserved_run ops e w : P w → P (run ops (e, w)).2.
Proof.
  revert e w. induction ops as [|o ops IH]; intros e w HP; [done|].
  simpl. pose proof (preserved_step e w o HP) as HP1.
  destruct (step (e, w) o) as [e1 w1]. by apply IH.
Qed.
End Preserved.

(** ** The lock and the end of the process *)

Section Flags.
Implicit Types (w : world) (q : nat) (p : params).

(** Once the process has ended, nothing happens. *)
Lemma worker_step_exited q w : exited w = true → worker_step q w = w.
Proof. intros He. unfold worker_step. by rewrite He. Qed.

Lemma step_exited e w o : exited w = true → step (e, w) o = (e, w).
Proof. intros He. unfold step. simpl. by rewrite He. Qed.

Lemma run_exited ops e w : exited w = true → run ops (e, w) = (e, w).
Proof.
  intros He. induction ops as [|o ops IH]; [done|].
  simpl. by rewrite step_exited.
Qed.

(** The goroutines of the handlers and the sends do not touch the
    lock. *)
Lemma locked_worker_step q w : locked (worker_step q w) = locked w.
Proof.
  unfold worker_step. destruct (exited w); [done|].
  destruct (chans w !! q) as [c|]; [|done].
  destruct (buf c) as [|p rest]; [done|].
  by destruct (Call (receiver c) p).
Qed.

Lemma locked_send queue p w : locked (send queue p w).1 = locked w.
Proof.
  unfold send. destruct queue as [q|]; [|done].
  destruct (chans w !! q) as [c|]; [|done].
  set (w1 := if bool_decide _ then w else worker_step q w).
  assert (locked w1 = locked w) as Hw1.
  { unfold w1. case_bool_decide; [done|apply locked_worker_step]. }
  destruct (exited w1); [done|]. by destruct (chans w1 !! q).
Qed.

Lemma exited_send_mono queue p w :
  exited w = true → exited (send queue p w).1 = true.
Proof.
  intros He. unfold send. destruct queue as [q|]; [|done].
  destruct (chans w !! q) as [c|]; [|done].
  rewrite (worker_step_exited q w He).
  replace (if bool_decide (Z.of_nat (length (buf c)) < cap c) then w else w)
    with w by (by case_bool_decide).
  by rewrite He.
Qed.

(** How a send ends: it completes, in a process that runs; it waits for
    ever; or the process has ended. *)
Lemma send_outcome queue p w :
  ((send queue p w).2 = None ∧ exited (send queue p w).1 = false)
  ∨ (send queue p w).2 = Some Blocks
  ∨ ((send queue p w).2 = Some Exits ∧ exited (send queue p w).1 = true).
Proof.
  unfold send. destruct queue as [q|]; [|by right; left].
  destruct (chans w !! q) as [c|]; [|by right; left].
  set (w1 := if bool_decide _ then w else worker_step q w).
  destruct (exited w1) eqn:He; [by right; right|].
  destruct (chans w1 !! q) as [c1|]; [by left|by right; left].
Qed.

Lemma send_async_outcome hs p w :
  ((send_async hs p w).2 = None ∧ exited (send_async hs p w).1 = exited w)
  ∨ (send_async hs p w).2 = Some Blocks
  ∨ ((send_async hs p w).2 = Some Exits ∧ exited (send_async hs p w).1 = true).
Proof.
  revert w. induction hs as [|h hs IH]; intros w; simpl; [by left|].
  destruct (isAsync h); [|apply IH].
  pose proof (send_outcome (queue h) p w) as Hs.
  destruct (send (queue h) p w) as [w1 [o|]] eqn:Hsend; simpl in *.
  - destruct Hs as [[? _]|[?|[? ?]]]; [done|by right; left|by right; right].
  - destruct Hs as [[_ He]|[?|[? _]]]; [|done..].
    destruct (IH w1) as [[Hn He1]|[?|[? ?]]]; [|by right; left|by right; right].
    left. split; [done|].
    rewrite He1, He. symmetry.
    destruct (exited w) eqn:Hw; [|done].
    pose proof (exited_send_mono (queue h) p w Hw) as Hm.
    rewrite Hsend in Hm. simpl in Hm. congruence.
Qed.
End Flags.
Lemma exited_abandon rest w : exited (abandon rest w) = exited w.
Proof. by destruct rest. Qed.

Lemma trace_abandon rest w : trace (abandon rest w) = trace w.
Proof. by destruct rest. Qed.

Lemma chans_abandon rest w : chans (abandon rest w) = chans w.
Proof. by destruct rest. Qed.

Lemma locked_abandon rest w :
  locked (abandon rest w) = if rest is [] then locked w else true.
Proof. by destruct rest. Qed.

(** The end of the process and the keeping of the lock are for good. *)
Lemma exited_Publish_mono e ctx msg o1 o2 w :
  exited w = true → exited (Publish e ctx msg o1 o2 w).1 = true.
Proof.
  apply (preserved_Publish (λ w, exited w = true)).
  - apply exited_send_mono.
  - done.
  - intros rest w'. by rewrite exited_abandon.
Qed.

Lemma exited_run_mono ops e w :
  exited (run ops (e, w)).2 = false → exited w = false.
Proof.
  intros He. destruct (exited w) eqn:Hw; [|done].
  rewrite (run_exited ops e w Hw) in He. simpl in He. congruence.
Qed.

Lemma locked_step_mono e w o :
  locked w = true → locked (step (e, w) o).2 = true.
Proof.
  apply (preserved_step (λ w, locked w = true)).
  - intros queue p w'. by rewrite locked_send.
  - done.
  - intros rest w' Hl. rewrite locked_abandon. by destruct rest.
  - done.
  - intros q w'. by rewrite locked_worker_step.
Qed.

Lemma locked_run_mono ops e w :
  locked (run ops (e, w)).2 = false → locked w = false.
Proof.
  revert e w. induction ops as [|o ops IH]; intros e w Hl; [done|].
  simpl in Hl. destruct (locked w) eqn:Hw; [|done].
  pose proof (locked_step_mono e w o Hw) as Hs.
  destruct (step (e, w) o) as [e1 w1]. simpl in Hs.
  apply IH in Hl. congruence.
Qed.

Lemma live_run ops e w : live (run ops (e, w)).2 → live w.
Proof.
  intros [He Hl]. split; [by eapply exited_run_mono|by eapply locked_run_mono].
Qed.

(** ** What stays fixed in the world: the wiring of the channels *)

Section Wiring.
Implicit Types (w : world) (q : nat) (p : params).

Lemma wiring_log ev w : wiring (log ev w) = wiring w.
Proof. reflexivity. Qed.

Lemma wiring_exit w : wiring (exit w) = wiring w.
Proof. reflexivity. Qed.

Lemma wiring_abandon rest w : wiring (abandon rest w) = wiring w.
Proof. by destruct rest. Qed.

Lemma wiring_set_buf w q c b :
  chans w !! q = Some c → wiring (set_buf q c b w) = wiring w.
Proof.
  intros Hq. unfold wiring, set_buf; simpl. rewrite list_fmap_insert. simpl.
  apply list_insert_id. by rewrite list_lookup_fmap, Hq.
Qed.

Lemma wiring_worker_step q w : wiring (worker_step q w) = wiring w.
Proof.
  unfold worker_step. destruct (exited w); [done|].
  destruct (chans w !! q) as [c|] eqn:Hq; [|done].
  destruct (buf c) as [|p rest]; [done|].
  destruct (Call (receiver c) p); rewrite ?wiring_exit, wiring_log;
    by apply wiring_set_buf.
Qed.

Lemma wiring_lookup w q n f :
  wiring w !! q = Some (n, f) ↔
  ∃ c, chans w !! q = Some c ∧ cap c = n ∧ receiver c = f.
Proof.
  unfold wiring. rewrite list_lookup_fmap. split.
  - destruct (chans w !! q) as [c|]; [|done]. simpl. intros [= <- <-]. eauto.
  - intros (c & -> & <- & <-). done.
Qed.

Lemma chans_lookup_wiring w w' q c :
  wiring w' = wiring w → chans w !! q = Some c →
  ∃ c', chans w' !! q = Some c' ∧ cap c' = cap c ∧ receiver c' = receiver c.
Proof.
  intros Hw Hq. apply wiring_lookup. rewrite Hw. apply wiring_lookup. eauto.
Qed.

Lemma wiring_send queue p w : wiring (send queue p w).1 = wiring w.
Proof.
  unfold send. destruct queue as [q|]; [|done].
  destruct (chans w !! q) as [c|] eqn:Hq; [|done].
  set (w1 := if bool_decide _ then w else worker_step q w).
  assert (wiring w1 = wiring w) as Hw1.
  { unfold w1. case_bool_decide; [done|apply wiring_worker_step]. }
  destruct (exited w1); [done|].
  destruct (chans w1 !! q) as [c1|] eqn:Hq1; [|done].
  simpl. rewrite wiring_log, <- Hw1. by apply wiring_set_buf.
Qed.

(** A send on a channel of the world never waits for ever. *)
Lemma send_not_Blocks q p w :
  is_Some (chans w !! q) → (send (Some q) p w).2 ≠ Some Blocks.
Proof.
  intros [c Hq]. unfold send. rewrite Hq.
  set (w1 := if bool_decide _ then w else worker_step q w).
  assert (wiring w1 = wiring w) as Hw1.
  { unfold w1. case_bool_decide; [done|apply wiring_worker_step]. }
  destruct (chans_lookup_wiring w w1 q c Hw1 Hq) as (c1 & -> & _).
  by destruct (exited w1).
Qed.

Lemma wiring_make_queue n f w :
  wiring (make_queue n f w).2 = (wiring w ++ [(n, f)])%list.
Proof. unfold wiring, make_queue; simpl. by rewrite fmap_app. Qed.

Lemma length_wiring w : length (wiring w) = length (chans w).
Proof. unfold wiring. by rewrite length_fmap. Qed.

Lemma Publish_wiring e ctx msg o1 o2 w :
  wiring (Publish e ctx msg o1 o2 w).1 = wiring w.
Proof.
  apply (preserved_Publish (λ w', wiring w' = wiring w)); [| | |done].
  - intros queue p w' Hw'. by rewrite wiring_send.
  - done.
  - intros rest w' Hw'. by rewrite wiring_abandon.
Qed.
End Wiring.

(** ** The invariant of a bus and its world *)

Section Invariant.
Implicit Types (e : eventBus) (w : world) (h : handler).

Lemma handler_ok_app key wires more h :
  handler_ok key wires h → handler_ok key (wires ++ more) h.
Proof.
  intros (Hv & Hk & Hq). split_and!; [done..|].
  destruct (queue h) as [q|]; [|done].
  destruct Hq as [Ha Hq]. split; [done|]. by apply lookup_app_l_Some.
Qed.

Lemma bus_ok_wiring e w w' :
  wiring w' = wiring w → bus_ok e w → bus_ok e w'.
Proof. intros Hw Hok key hs Hl. rewrite Hw. by apply Hok. Qed.

Lemma bus_ok_more e w w' more :
  wiring w' = (wiring w ++ more)%list → bus_ok e w → bus_ok e w'.
Proof.
  intros Hw Hok key hs Hl. destruct (Hok key hs Hl) as [Hne Hhs].
  split; [done|]. rewrite Hw. eapply Forall_impl; [exact Hhs|].
  intros h. apply handler_ok_app.
Qed.

Lemma bus_ok_New queueSize w : bus_ok (New queueSize) w.
Proof. intros key hs Hl. simpl in Hl. by rewrite lookup_empty in Hl. Qed.

Lemma new_handler_ok f async w key :
  validateHandler (Some f) = Returns None → handler_key f = Some key →
  handler_ok key (wiring (new_world f async w)) (new_handler f async w).
Proof.
  intros Hv Hk. split_and!; [done..|].
  unfold new_handler, new_world. destruct async; [|done].
  cbn [queue isAsync Handler]. split; [done|]. rewrite wiring_make_queue.
  rewrite lookup_app_r by (rewrite length_wiring; lia).
  by rewrite length_wiring, Nat.sub_diag.
Qed.

Lemma wiring_new_world f async w :
  ∃ more, wiring (new_world f async w) = (wiring w ++ more)%list.
Proof.
  unfold new_world. destruct async.
  - eexists. apply wiring_make_queue.
  - exists []. by rewrite app_nil_r.
Qed.

Lemma subscribe_ok e fn async w :
  bus_ok e w →
  bus_ok (subscribe e fn async w).1.1 (subscribe e fn async w).1.2.
Proof.
  intros Hok.
  destruct (decide (validateHandler fn = Returns None)) as [Hv|Hv];
    [|by rewrite subscribe_rejected].
  destruct fn as [f|]; [|done].
  destruct (accepted_has_key f Hv) as [key Hk].
  rewrite (subscribe_accepted _ _ _ _ key) by done.
  destruct (wiring_new_world f async w) as [more Hmore].
  destruct (locked w); cbn [fst snd]; [by eapply bus_ok_more|].
  intros key' hs. cbn [bus_handlers].
  destruct (decide (key = key')) as [<-|Hne].
  - rewrite items_Add_eq. intros [= <-]. split.
    { by destruct (default [] _). }
    apply Forall_app. split.
    + destruct (items (bus_handlers e) !! key) as [hs|] eqn:Hl; simpl; [|done].
      rewrite Hmore. eapply Forall_impl; [by apply (Hok key hs)|].
      intros h. apply handler_ok_app.
    + apply Forall_singleton. by apply new_handler_ok.
  - rewrite items_Add_ne by done. intros Hl. split; [by apply (Hok key' hs)|].
    rewrite Hmore. eapply Forall_impl; [by apply (Hok key' hs)|].
    intros h. apply handler_ok_app.
Qed.

Lemma step_ok e w o : bus_ok e w → bus_ok (step (e, w) o).1 (step (e, w) o).2.
Proof.
  intros Hok. unfold step. simpl. destruct (exited w); [done|].
  destruct o as [fn async|ctx msg o1 o2|q]; simpl.
  - by apply subscribe_ok.
  - eapply bus_ok_wiring; [apply Publish_wiring|done].
  - eapply bus_ok_wiring; [apply wiring_worker_step|done].
Qed.

Lemma run_ok ops e w : bus_ok e w → bus_ok (run ops (e, w)).1 (run ops (e, w)).2.
Proof.
  revert e w. induction ops as [|o ops IH]; intros e w Hok; simpl; [done|].
  pose proof (step_ok e w o Hok) as Hstep.
  destruct (step (e, w) o) as [e1 w1]. by apply IH.
Qed.

Lemma reachable_ok e w : reachable e w → bus_ok e w.
Proof.
  intros (queueSize & ops & Hrun).
  pose proof (run_ok ops (New queueSize) world0 (bus_ok_New _ _)) as Hok.
  by rewrite Hrun in Hok.
Qed.
End Invariant.

(** ** The registry holds the registrations of the history, in order *)

Section History.
Implicit Types (e : eventBus) (w : world) (key : string) (ops : list op).

(** A registration is filed unless the call waits for the lock. *)
Lemma entries_subscribe key e fn async w :
  entries key (subscribe e fn async w).1.1 =
  (entries key e ++ if locked w then []
                    else option_list (registration key (Sub fn async)))%list.
Proof.
  unfold registration.
  destruct (decide (validateHandler fn = Returns None)) as [Hv|Hv].
  - destruct fn as [f|]; [|done].
    destruct (accepted_has_key f Hv) as [key' Hk].
    rewrite (subscribe_accepted _ _ _ _ key') by done.
    destruct (locked w); cbn [fst snd]; [by rewrite app_nil_r|].
    unfold entries. cbn [bus_handlers].
    destruct (decide (key' = key)) as [->|Hne].
    + rewrite items_Add_eq, bool_decide_eq_true_2 by done. simpl.
      by rewrite fmap_app.
    + rewrite items_Add_ne by done.
      rewrite bool_decide_eq_false_2 by (intros [_ ?]; congruence).
      simpl. by rewrite app_nil_r.
  - rewrite subscribe_rejected by done. simpl.
    destruct fn as [f|]; [|by destruct (locked w); rewrite app_nil_r].
    rewrite bool_decide_eq_false_2 by (by intros [? _]).
    simpl. by destruct (locked w); rewrite app_nil_r.
Qed.

(** A step files what it registers, when the process runs and the lock
    is free; otherwise it files nothing. *)
Lemma entries_step key e w o :
  entries key (step (e, w) o).1 =
  (entries key e ++ if exited w || locked w then []
                    else option_list (registration key o))%list.
Proof.
  unfold step. simpl. destruct (exited w); simpl; [by rewrite app_nil_r|].
  destruct o as [fn async|ctx msg o1 o2|q]; simpl.
  - apply entries_subscribe.
  - by destruct (locked w); rewrite app_nil_r.
  - by destruct (locked w); rewrite app_nil_r.
Qed.

Lemma entries_run key ops e w :
  live (run ops (e, w)).2 →
  entries key (run ops (e, w)).1 = (entries key e ++ registrations key ops)%list.
Proof.
  revert e w. induction ops as [|o ops IH]; intros e w Hlive; simpl.
  - by rewrite app_nil_r.
  - simpl in Hlive. pose proof (entries_step key e w o) as Hstep.
    destruct (step (e, w) o) as [e1 w1] eqn:Hs. simpl in Hstep.
    rewrite (IH _ _ Hlive), Hstep, <- app_assoc. f_equal.
    assert (live w) as [He Hl].
    { apply (live_run (o :: ops) e w). simpl. by rewrite Hs. }
    rewrite He, Hl. simpl.
    unfold registrations. simpl. by destruct (registration key o).
Qed.

(** Whatever happens, a history only adds registrations of its own at
    the end of the slice, in their order. *)
Lemma entries_run_sublist key ops e w :
  ∃ regs, regs `sublist_of` registrations key ops
          ∧ entries key (run ops (e, w)).1 = (entries key e ++ regs)%list.
Proof.
  revert e w. induction ops as [|o ops IH]; intros e w; simpl.
  - exists []. by rewrite app_nil_r.
  - pose proof (entries_step key e w o) as Hstep.
    destruct (step (e, w) o) as [e1 w1]. simpl in Hstep.
    destruct (IH e1 w1) as (regs & Hsub & Hregs).
    rewrite Hregs, Hstep, <- app_assoc. eexists. split; [|done].
    unfold registrations. simpl.
    destruct (exited w || locked w); simpl.
    + destruct (registration key o); [by apply sublist_cons|done].
    + destruct (registration key o); simpl; [by apply sublist_skip|done].
Qed.

(** Registration order is slice order: the handlers a bus holds for
    [key] are the registrations of its history, oldest first. *)
Lemma entries_reachable key queueSize ops e w :
  run ops (New queueSize, world0) = (e, w) → live w →
  entries key e = registrations key ops.
Proof.
  intros Hrun Hlive.
  pose proof (entries_run key ops (New queueSize) world0) as H.
  rewrite Hrun in H. by apply H.
Qed.

(** Under the invariant, a key is in the map exactly when it has an
    entry. *)
Lemma entries_nil key e w :
  bus_ok e w → entries key e = [] → items (bus_handlers e) !! key = None.
Proof.
  intros Hok. unfold entries.
  destruct (items (bus_handlers e) !! key) as [hs|] eqn:Hl; [|done].
  destruct (Hok key hs Hl) as [Hne _]. by destruct hs.
Qed.

Lemma entries_not_nil key e :
  entries key e ≠ [] →
  ∃ hs, items (bus_handlers e) !! key = Some hs
        ∧ (λ h, (Handler h, isAsync h)) <$> hs = entries key e.
Proof.
  unfold entries.
  destruct (items (bus_handlers e) !! key) as [hs|] eqn:Hl; [eauto|done].
Qed.
End History.

Lemma fns_cons async h hs :
  fns async (h :: hs) =
  if bool_decide (isAsync h = async) then Handler h :: fns async hs
  else fns async hs.
Proof.
  unfold fns. rewrite fmap_cons, filter_cons. simpl.
  destruct (decide (isAsync h = async)) as [Heq|Hne].
  - by rewrite bool_decide_eq_true_2.
  - by rewrite bool_decide_eq_false_2.
Qed.

Lemma fns_registered async key queueSize ops e w hs :
  run ops (New queueSize, world0) = (e, w) → live w →
  items (bus_handlers e) !! key = Some hs →
  fns async hs = registered async key ops.
Proof.
  intros Hrun Hlive Hl. unfold fns, registered.
  rewrite <- (entries_reachable key queueSize ops e w Hrun Hlive).
  unfold entries. by rewrite Hl.
Qed.

(** ** The synchronous phase *)

Section SyncPhase.
Implicit Types (hs : list handler) (p : params) (w : world) (f : value).

Lemma called_nil p w : called [] p w = w.
Proof. unfold called. simpl. rewrite app_nil_r. by destruct w. Qed.

Lemma called_cons f fs p w :
  called (f :: fs) p w = called fs p (log (EvCall (v_ptr f) p) w).
Proof. unfold called, log. simpl. by rewrite <- app_assoc. Qed.

Lemma call_sync_nil_reply h hs p w :
  isAsync h = false → reply (Handler h) p = Some None →
  call_sync (h :: hs) p w = call_sync hs p (log (EvCall (v_ptr (Handler h)) p) w).
Proof.
  intros Hs Hr. simpl. rewrite Hs. simpl. unfold reply in Hr.
  destruct (Call (Handler h) p) as [[|[| |] rest]|pn]; done.
Qed.

Lemma call_sync_err_reply h hs p w err :
  isAsync h = false → reply (Handler h) p = Some (Some err) →
  call_sync (h :: hs) p w =
    (log (EvCall (v_ptr (Handler h)) p) w, Some (Returns (Some err))).
Proof.
  intros Hs Hr. simpl. rewrite Hs. simpl. unfold reply in Hr.
  destruct (Call (Handler h) p) as [[|[| |] rest]|pn]; try done.
  simpl. by injection Hr as ->.
Qed.

(** Every synchronous handler answers nil: all of them are called, in
    the order of the slice, and the loop runs to its end. *)
Lemma call_sync_all_nil hs p w :
  (∀ f, f ∈ fns false hs → reply f p = Some None) →
  call_sync hs p w = (called (fns false hs) p w, None).
Proof.
  revert w. induction hs as [|h hs IH]; intros w Hall.
  - simpl. by rewrite called_nil.
  - rewrite fns_cons in Hall |- *. destruct (isAsync h) eqn:Hs.
    + rewrite bool_decide_eq_false_2 in Hall |- * by done.
      simpl. rewrite Hs. simpl. by apply IH.
    + rewrite bool_decide_eq_true_2 in Hall |- * by done.
      rewrite call_sync_nil_reply by (try done; apply Hall; left).
      rewrite called_cons. apply IH. intros f Hf. apply Hall. by right.
Qed.

(** The first synchronous handler that answers an error ends the loop:
    it and those before it are called, those after it are not, and
    [Publish] returns that error. *)
Lemma call_sync_first_error hs p w pre f post err :
  fns false hs = (pre ++ f :: post)%list →
  (∀ g, g ∈ pre → reply g p = Some None) →
  reply f p = Some (Some err) →
  call_sync hs p w = (called (pre ++ [f]) p w, Some (Returns (Some err))).
Proof.
  revert w pre. induction hs as [|h hs IH]; intros w pre Hfs Hpre Hf.
  - by destruct pre.
  - rewrite fns_cons in Hfs. destruct (isAsync h) eqn:Hs.
    + rewrite bool_decide_eq_false_2 in Hfs by done.
      simpl. rewrite Hs. simpl. by apply IH.
    + rewrite bool_decide_eq_true_2 in Hfs by done.
      destruct pre as [|g pre]; simpl in Hfs; injection Hfs as Hh Hfs.
      * subst f. rewrite (call_sync_err_reply _ _ _ _ err) by done.
        simpl. by rewrite called_cons, called_nil.
      * subst g. rewrite call_sync_nil_reply by (try done; apply Hpre; left).
        simpl. rewrite called_cons. apply IH; [done| |done].
        intros g Hg. apply Hpre. by right.
Qed.

Lemma calls_app tr1 tr2 : calls (tr1 ++ tr2) = (calls tr1 ++ calls tr2)%list.
Proof. apply omap_app. Qed.

Lemma sends_app tr1 tr2 : sends (tr1 ++ tr2) = (sends tr1 ++ sends tr2)%list.
Proof. apply omap_app. Qed.

Lemma calls_called fs p w :
  calls (trace (called fs p w)) = (calls (trace w) ++ ((λ f, (v_ptr f, p)) <$> fs))%list.
Proof.
  unfold called. simpl. rewrite calls_app. f_equal.
  induction fs as [|f fs IH]; [done|].
  rewrite !fmap_cons. change (calls (EvCall (v_ptr f) p :: ?l))
    with ((v_ptr f, p) :: calls l). by rewrite IH.
Qed.

Lemma sends_called fs p w : sends (trace (called fs p w)) = sends (trace w).
Proof.
  unfold called. simpl. rewrite sends_app.
  rewrite <- (app_nil_r (sends (trace w))) at 2. f_equal.
  induction fs as [|f fs IH]; [done|]. done.
Qed.

(** The second phase only adds calls of synchronous handlers to the
    trace, the first of the slice first. *)
Lemma call_sync_called hs p w :
  ∃ fs, (call_sync hs p w).1 = called fs p w ∧ fs `prefix_of` fns false hs.
Proof.
  revert w. induction hs as [|h hs IH]; intros w.
  - exists []. simpl. by rewrite called_nil.
  - rewrite fns_cons. destruct (isAsync h) eqn:Ha.
    + rewrite bool_decide_eq_false_2 by done. simpl. rewrite Ha. apply IH.
    + rewrite bool_decide_eq_true_2 by done. simpl. rewrite Ha. simpl.
      destruct (Call (Handler h) p) as [result|pn];
        [|exists []; rewrite called_nil; split; [done|apply prefix_nil]].
      assert (∃ fs, log (EvCall (v_ptr (Handler h)) p) w = called fs p w
                    ∧ fs `prefix_of` Handler h :: fns false hs) as Hone.
      { exists [Handler h]. split; [by rewrite called_cons, called_nil|].
        apply prefix_cons, prefix_nil. }
      destruct (result !! 0%nat) as [[| |]|]; try done.
      destruct (IH (log (EvCall (v_ptr (Handler h)) p) w)) as (fs & Hfs & Hpre).
      exists (Handler h :: fs). rewrite called_cons. split; [done|].
      by apply prefix_cons.
Qed.

Lemma exited_call_sync hs p w : exited (call_sync hs p w).1 = exited w.
Proof. destruct (call_sync_called hs p w) as (fs & -> & _). done. Qed.

(** What the second phase returns is decided by the synchronous
    functions of the slice. *)
Lemma call_sync_outcome hs p w :
  default (Returns None) (call_sync hs p w).2 = sync_outcome (fns false hs) p.
Proof.
  revert w. induction hs as [|h hs IH]; intros w; [done|].
  rewrite fns_cons. destruct (isAsync h) eqn:Ha.
  - rewrite bool_decide_eq_false_2 by done. simpl. rewrite Ha. apply IH.
  - rewrite bool_decide_eq_true_2 by done. simpl. rewrite Ha. simpl.
    destruct (Call (Handler h) p) as [result|pn]; [|done].
    destruct (result !! 0%nat) as [[| |]|]; try done.
Qed.

Lemma sync_outcome_ends fs p :
  sync_outcome fs p ≠ Blocks ∧ sync_outcome fs p ≠ Exits.
Proof.
  induction fs as [|f fs IH]; simpl; [done|].
  destruct (Call f p) as [result|]; [|done].
  by destruct (result !! 0%nat) as [[| |]|].
Qed.
End SyncPhase.

(** ** The asynchronous phase *)

Section AsyncPhase.
Implicit Types (hs : list handler) (p : params) (w : world) (q : nat).

(** A turn of a goroutine adds one event to the trace, which is
    neither a send nor a call of [Publish], or adds nothing. *)
Lemma worker_step_trace q w :
  ∃ d, trace (worker_step q w) = (trace w ++ d)%list ∧ calls d = [] ∧ sends d = [].
Proof.
  unfold worker_step. destruct (exited w); [by exists []; rewrite app_nil_r|].
  destruct (chans w !! q) as [c|]; [|by exists []; rewrite app_nil_r].
  destruct (buf c) as [|p rest]; [by exists []; rewrite app_nil_r|].
  destruct (Call (receiver c) p); simpl; by eexists.
Qed.

Lemma send_trace queue p w :
  ∃ d, trace (send queue p w).1 = (trace w ++ d)%list ∧ calls d = []
       ∧ ((send queue p w).2 = None → ∃ q, queue = Some q ∧ sends d = [(q, p)]).
Proof.
  unfold send. destruct queue as [q|]; [|by exists []; rewrite app_nil_r].
  destruct (chans w !! q) as [c|] eqn:Hq; [|by exists []; rewrite app_nil_r].
  set (w1 := if bool_decide _ then w else worker_step q w).
  assert (∃ d, trace w1 = (trace w ++ d)%list ∧ calls d = [] ∧ sends d = [])
    as (d & Hd & Hc & Hs).
  { unfold w1. case_bool_decide; [by exists []; rewrite app_nil_r|].
    apply worker_step_trace. }
  destruct (exited w1); [by exists d|].
  destruct (chans w1 !! q) as [c1|]; [|by exists d].
  simpl. exists (d ++ [EvSend q p])%list.
  rewrite Hd, <- app_assoc. split; [done|].
  rewrite calls_app, sends_app, Hc, Hs. split; [done|]. intros _. by exists q.
Qed.

(** The queue of a sound asynchronous handler is a channel of the
    world. *)
Lemma handler_ok_queue key w h :
  handler_ok key (wiring w) h → isAsync h = true →
  ∃ q, queue h = Some q ∧ is_Some (chans w !! q)
       ∧ wiring w !! q = Some (defaultAsyncHandlerQueueSize, Handler h).
Proof.
  intros (_ & _ & Hq) Ha. destruct (queue h) as [q|]; [|congruence].
  destruct Hq as [_ Hq]. exists q. split_and!; [done| |done].
  apply wiring_lookup in Hq as (c & -> & _). by eexists.
Qed.

(** Under the invariant the first phase never waits for ever, and when
    the process is still running after it, it has put [p] on the channel
    of every asynchronous handler, in the order of the slice, and has
    called no handler of the second phase. *)
Lemma send_async_not_Blocks key hs p w :
  Forall (handler_ok key (wiring w)) hs → (send_async hs p w).2 ≠ Some Blocks.
Proof.
  revert w. induction hs as [|h hs IH]; intros w Hok; [done|].
  apply Forall_cons in Hok as [Hh Hok]. simpl.
  destruct (isAsync h) eqn:Ha; [|by apply IH].
  destruct (handler_ok_queue key w h Hh Ha) as (q & Hq & Hc & _).
  rewrite Hq. pose proof (send_not_Blocks q p w Hc) as Hnb.
  pose proof (wiring_send (Some q) p w) as Hw.
  destruct (send (Some q) p w) as [w0 [o|]]; simpl in *.
  - congruence.
  - apply IH. by rewrite Hw.
Qed.

Lemma send_async_ok key hs p w :
  Forall (handler_ok key (wiring w)) hs →
  exited (send_async hs p w).1 = false →
  ∃ w1 d, send_async hs p w = (w1, None) ∧ trace w1 = (trace w ++ d)%list
          ∧ calls d = []
          ∧ sends d = omap (λ h, if isAsync h then (λ q, (q, p)) <$> queue h
                                 else None) hs.
Proof.
  revert w. induction hs as [|h hs IH]; intros w Hok Hrun.
  - exists w, []. simpl. by rewrite app_nil_r.
  - apply Forall_cons in Hok as [Hh Hok]. simpl in *.
    destruct (isAsync h) eqn:Ha; [|by apply IH].
    destruct (handler_ok_queue key w h Hh Ha) as (q & Hq & Hc & _).
    rewrite Hq in *. pose proof (send_not_Blocks q p w Hc) as Hnb.
    pose proof (wiring_send (Some q) p w) as Hw.
    pose proof (send_outcome (Some q) p w) as Hout.
    destruct (send_trace (Some q) p w) as (d0 & Hd0 & Hc0 & Hs0).
    destruct (send (Some q) p w) as [w0 [o|]]; simpl in *.
    { destruct Hout as [[? _]|[?|[_ ?]]]; congruence. }
    destruct (Hs0 eq_refl) as (q' & [= <-] & Hs0').
    destruct (IH w0) as (w1 & d & Hrest & Hd & Hcd & Hsd);
      [by rewrite Hw|done|].
    exists w1, (d0 ++ d)%list. split; [done|].
    rewrite Hd, Hd0, <- app_assoc. split; [done|].
    rewrite calls_app, sends_app, Hc0, Hs0', Hsd. done.
Qed.
End AsyncPhase.

(** ** One [Publish] on a sound bus *)

Lemma locked_send_async hs p w : locked (send_async hs p w).1 = locked w.
Proof.
  revert w. induction hs as [|h hs IH]; intros w; simpl; [done|].
  destruct (isAsync h); [|apply IH].
  pose proof (locked_send (queue h) p w) as Hl.
  destruct (send (queue h) p w) as [w1 [o|]]; simpl in *; [done|].
  by rewrite IH.
Qed.

Lemma locked_call_sync hs p w : locked (call_sync hs p w).1 = locked w.
Proof. destruct (call_sync_called hs p w) as (fs & -> & _). done. Qed.

(** The second phase is left early by the [return] of an error or by a
    panic. *)
Lemma call_sync_early hs p w o :
  (call_sync hs p w).2 = Some o →
  (∃ err, o = Returns (Some err)) ∨ (∃ pn, o = Panics pn).
Proof.
  revert w. induction hs as [|h hs IH]; intros w; simpl; [done|].
  destruct (isAsync h); simpl; [apply IH|].
  destruct (Call (Handler h) p) as [result|pn]; [|intros [= <-]; eauto].
  destruct (result !! 0%nat) as [[| |]|]; simpl; try (intros [= <-]; eauto).
  apply IH.
Qed.

(** The first phase is left early when a send does not complete. *)
Lemma send_async_early hs p w o :
  (send_async hs p w).2 = Some o → o = Blocks ∨ o = Exits.
Proof.
  intros Ho. destruct (send_async_outcome hs p w) as [[Hn _]|[Hb|[He _]]];
    rewrite Ho in *; [done|injection Hb as ->; by left|injection He as ->; by right].
Qed.

(** Two worlds that differ at most in whether the lock is kept. *)
Definition same_but_lock (w1 w2 : world) : Prop :=
  chans w1 = chans w2 ∧ trace w1 = trace w2 ∧ exited w1 = exited w2.

Lemma same_but_lock_abandon rest rest' w :
  same_but_lock (abandon rest w) (abandon rest' w).
Proof. by destruct rest, rest'. Qed.

(** [Publish] looks at the registry through the entry of the key of the
    message; the other entries, and the orders of the two loops, decide
    nothing but whether the lock is kept when a loop is left early.
    When [Publish] returns nil no loop was left early, and they decide
    nothing at all. *)
Lemma Publish_same_entry e e' ctx m o1 o2 o1' o2' w :
  items (bus_handlers e') !! type_String (v_type m)
  = items (bus_handlers e) !! type_String (v_type m) →
  (Publish e' ctx (Some m) o1' o2' w).2 = (Publish e ctx (Some m) o1 o2 w).2
  ∧ same_but_lock (Publish e' ctx (Some m) o1' o2' w).1
                  (Publish e ctx (Some m) o1 o2 w).1
  ∧ ((Publish e ctx (Some m) o1 o2 w).2 = Returns None →
     Publish e' ctx (Some m) o1' o2' w = Publish e ctx (Some m) o1 o2 w).
Proof.
  intros Heq. destruct (locked w) eqn:Hlocked.
  { by rewrite !Publish_locked. }
  destruct (items (bus_handlers e) !! type_String (v_type m)) as [hs|] eqn:Hl.
  - rewrite !(Publish_registered _ _ _ _ _ _ hs) by done. cbn zeta.
    pose proof (send_async_early hs {| p_ctx := ctx; p_msg := ValueOf m |} w) as He1.
    destruct (send_async hs _ w) as [w1 [o|]].
    { split_and!; [done|apply same_but_lock_abandon|].
      simpl. intros ->. by destruct (He1 _ eq_refl). }
    pose proof (call_sync_early hs {| p_ctx := ctx; p_msg := ValueOf m |} w1) as He2.
    destruct (call_sync hs _ w1) as [w2 [o|]]; [|done].
    split_and!; [done|apply same_but_lock_abandon|].
    simpl. intros ->. by destruct (He2 _ eq_refl) as [[err ?]|[pn ?]].
  - by rewrite !Publish_not_registered.
Qed.

(** On a sound bus with the lock free, a [Publish] that the process
    survives has put the parameters on the channel of every asynchronous
    handler of the key, the events [A], and has then gone through the
    second phase. *)
Lemma Publish_running e w ctx m o1 o2 hs :
  bus_ok e w → locked w = false →
  items (bus_handlers e) !! type_String (v_type m) = Some hs →
  exited (Publish e ctx (Some m) o1 o2 w).1 = false →
  let key := type_String (v_type m) in
  let p := {| p_ctx := ctx; p_msg := ValueOf m |} in
  ∃ w1 A,
    send_async hs p w = (w1, None)
    ∧ trace w1 = (trace w ++ A)%list ∧ calls A = []
    ∧ sends A = omap (λ h, if isAsync h then (λ q, (q, p)) <$> queue h else None) hs
    ∧ Publish e ctx (Some m) o1 o2 w =
        match call_sync hs p w1 with
        | (w2, Some o) =>
            (abandon (behind key (permute o2 (Iter (bus_handlers e)))) w2, o)
        | (w2, None) => (w2, Returns None)
        end.
Proof.
  intros Hok Hfree Hl Hrun key p. destruct (Hok _ hs Hl) as [_ Hhs].
  rewrite (Publish_registered _ _ _ _ _ _ hs Hl Hfree) in Hrun |- *.
  cbn zeta in *. fold key p in Hrun |- *.
  assert (exited (send_async hs p w).1 = false) as Hrun1.
  { destruct (send_async hs p w) as [w1 [o|]]; simpl in *.
    - by rewrite exited_abandon in Hrun.
    - pose proof (exited_call_sync hs p w1) as He.
      destruct (call_sync hs p w1) as [w2 [o|]]; simpl in *;
        rewrite ?exited_abandon in Hrun; congruence. }
  destruct (send_async_ok key hs p w Hhs Hrun1) as (w1 & A & Hsend & HA & HcA & HsA).
  exists w1, A. rewrite Hsend. done.
Qed.

(** ** When the process survives a [Publish]

    [Publish] itself never ends the process.  The goroutine of a handler
    does, when the call of the handler panics, and within a [Publish]
    that goroutine takes a turn when its channel is full.  So the
    process survives whenever nothing that waits on the channel of an
    asynchronous handler of the message, nor the message itself, makes
    the function of that channel panic. *)
Definition calm_chan (p : params) (w : world) (q : nat) : Prop :=
  ∀ c, chans w !! q = Some c →
    Forall (λ p', ∃ result, Call (receiver c) p' = inl result) (buf c ++ [p]).

Definition calm (hs : list handler) (p : params) (w : world) : Prop :=
  ∀ h q, h ∈ hs → isAsync h = true → queue h = Some q → calm_chan p w q.

Lemma calm_chan_set_buf p w q c b q' :
  chans w !! q = Some c →
  Forall (λ p', ∃ result, Call (receiver c) p' = inl result) (b ++ [p]) →
  calm_chan p w q' → calm_chan p (set_buf q c b w) q'.
Proof.
  intros Hq Hb Hcalm c'. unfold set_buf; simpl.
  destruct (decide (q = q')) as [<-|Hne].
  - rewrite list_lookup_insert_eq by (by eapply lookup_lt_Some).
    by intros [= <-].
  - rewrite list_lookup_insert_ne by done. apply Hcalm.
Qed.

Lemma calm_worker_step p w q :
  calm_chan p w q → exited w = false →
  exited (worker_step q w) = false
  ∧ ∀ q', calm_chan p w q' → calm_chan p (worker_step q w) q'.
Proof.
  intros Hcalm He. unfold worker_step. rewrite He.
  destruct (chans w !! q) as [c|] eqn:Hq; [|done].
  destruct (buf c) as [|p0 rest] eqn:Hbuf; [done|].
  pose proof (Hcalm c Hq) as Hc. rewrite Hbuf in Hc.
  apply Forall_cons in Hc as [[result ->] Hrest].
  split; [done|]. intros q' Hq'.
  change (calm_chan p (log ?ev ?w) q') with (calm_chan p w q').
  by apply calm_chan_set_buf.
Qed.

Lemma calm_send p w q :
  calm_chan p w q → exited w = false →
  exited (send (Some q) p w).1 = false
  ∧ ∀ q', calm_chan p w q' → calm_chan p (send (Some q) p w).1 q'.
Proof.
  intros Hcalm He. unfold send.
  destruct (chans w !! q) as [c|] eqn:Hq; [|done].
  set (w1 := if bool_decide _ then w else worker_step q w).
  assert (exited w1 = false ∧ ∀ q', calm_chan p w q' → calm_chan p w1 q')
    as [He1 Hcalm1].
  { unfold w1. case_bool_decide; [done|by apply calm_worker_step]. }
  rewrite He1. destruct (chans w1 !! q) as [c1|] eqn:Hq1; [|done].
  split; [done|]. intros q' Hq'. cbn [fst].
  change (calm_chan p (log ?ev ?w) q') with (calm_chan p w q').
  apply calm_chan_set_buf; [done| |by apply Hcalm1].
  pose proof (Hcalm1 q Hcalm c1 Hq1) as Hc1.
  apply Forall_app. split; [done|].
  apply Forall_app in Hc1 as [_ Hp]. done.
Qed.

Lemma calm_send_async hs p w :
  calm hs p w → exited w = false → exited (send_async hs p w).1 = false.
Proof.
  revert w. induction hs as [|h hs IH]; intros w Hcalm He; [done|].
  assert (calm hs p w) as Hcalm'.
  { intros h' q' Hin. apply Hcalm. by right. }
  simpl. destruct (isAsync h) eqn:Ha; [|by apply IH].
  destruct (queue h) as [q|] eqn:Hq; [|done].
  destruct (calm_send p w q) as [He1 Hcalm1]; [by apply (Hcalm h); [left|..]|done|].
  destruct (send (Some q) p w) as [w1 [o|]]; [done|]. cbn [fst] in *.
  apply IH; [|done]. intros h' q' Hin Ha' Hq'. apply Hcalm1.
  by apply (Hcalm' h').
Qed.

Lemma Publish_survives e ctx m o1 o2 w :
  exited w = false →
  (∀ hs, items (bus_handlers e) !! type_String (v_type m) = Some hs →
         calm hs {| p_ctx := ctx; p_msg := ValueOf m |} w) →
  exited (Publish e ctx (Some m) o1 o2 w).1 = false.
Proof.
  intros He Hcalm. destruct (locked w) eqn:Hlocked.
  { by rewrite Publish_locked. }
  destruct (items (bus_handlers e) !! type_String (v_type m)) as [hs|] eqn:Hl;
    [|by rewrite Publish_not_registered].
  rewrite (Publish_registered _ _ _ _ _ _ hs) by done. cbn zeta.
  pose proof (calm_send_async hs _ w (Hcalm hs eq_refl) He) as He1.
  destruct (send_async hs _ w) as [w1 [o|]]; cbn [fst] in *.
  { by rewrite exited_abandon. }
  pose proof (exited_call_sync hs {| p_ctx := ctx; p_msg := ValueOf m |} w1) as He2.
  destruct (call_sync hs _ w1) as [w2 [o|]]; cbn [fst] in *;
    rewrite ?exited_abandon; congruence.
Qed.

(** ** Publishing to synchronous handlers *)

(** C1.  On every bus, after any history that leaves the lock of the
    registry free, and for a [Publish] that the process survives: when
    every synchronous handler registered for the type of the message
    answers nil, [Publish] calls all of them with the published context
    and message, in the order they were registered, and returns no error
    (also when there is no synchronous handler but some handler is
    registered); when the handler at position [k] is the first to answer
    an error, [Publish] calls exactly the first [k] handlers, in that
    order, none after it, and returns that error unchanged.  This is so
    whatever the orders of the two loops over [Iter]. *)
Theorem Publish_sync_in_registration_order queueSize ops e w ctx m o1 o2 :
  run ops (New queueSize, world0) = (e, w) →
  locked w = false →
  exited (Publish e (Some ctx) (Some m) o1 o2 w).1 = false →
  registrations (type_String (v_type m)) ops ≠ [] →
  let p := {| p_ctx := Some ctx; p_msg := ValueOf m |} in
  let fs := registered false (type_String (v_type m)) ops in
  ((∀ f, f ∈ fs → reply f p = Some None) →
   ∃ w', Publish e (Some ctx) (Some m) o1 o2 w = (w', Returns None)
         ∧ calls (trace w') = (calls (trace w) ++ ((λ f, (v_ptr f, p)) <$> fs))%list)
  ∧ (∀ pre f post err,
       fs = (pre ++ f :: post)%list →
       (∀ g, g ∈ pre → reply g p = Some None) →
       reply f p = Some (Some err) →
       ∃ w', Publish e (Some ctx) (Some m) o1 o2 w = (w', Returns (Some err))
             ∧ calls (trace w')
               = (calls (trace w) ++ ((λ f, (v_ptr f, p)) <$> (pre ++ [f])))%list).
Proof.
  intros Hrun Hfree Halive Hreg p fs.
  assert (bus_ok e w) as Hok by (apply reachable_ok; by exists queueSize, ops).
  assert (live w) as Hlive.
  { split; [|done]. destruct (exited w) eqn:He; [|done].
    by rewrite exited_Publish_mono in Halive. }
  rewrite <- (entries_reachable _ queueSize ops e w Hrun Hlive) in Hreg.
  destruct (entries_not_nil _ _ Hreg) as (hs & Hl & _).
  assert (fns false hs = fs) as Hfs by (by eapply fns_registered).
  destruct (Publish_running e w (Some ctx) m o1 o2 hs Hok Hfree Hl Halive)
    as (w1 & A & _ & HA & HcA & _ & ->). fold p.
  assert (calls (trace w1) = calls (trace w)) as Hc1.
  { by rewrite HA, calls_app, HcA, app_nil_r. }
  split.
  - intros Hall. rewrite call_sync_all_nil by (by rewrite Hfs).
    eexists. split; [done|]. by rewrite calls_called, Hc1, Hfs.
  - intros pre f post err Hsplit Hpre Hf.
    rewrite (call_sync_first_error hs p w1 pre f post err) by (by rewrite ?Hfs).
    eexists. split; [done|]. by rewrite trace_abandon, calls_called, Hc1.
Qed.

Lemma Publish_sync_in_registration_order_witness :
  ∃ w', Publish (run ops_chain (New [], world0)).1 (Some background) (Some query)
          in_order in_order (run ops_chain (New [], world0)).2
        = (w', Returns (Some (errors_New "some error")))
        ∧ calls (trace w') = [(1%nat, query_params); (2%nat, query_params)].
Proof.
  destruct (Publish_sync_in_registration_order [] ops_chain
              (run ops_chain (New [], world0)).1 (run ops_chain (New [], world0)).2
              background query in_order in_order) as [_ Herr].
  - reflexivity.
  - reflexivity.
  - reflexivity.
  - vm_compute. discriminate.
  - apply (Herr [handler_nil 1] (handler_failing 2 "some error") [handler_nil 3]).
    + reflexivity.
    + intros g Hg. apply list_elem_of_singleton in Hg. subst g. reflexivity.
    + reflexivity.
Defined.

(** ** Publishing without a handler *)

(** C2.  When no handler has been registered for the exact type of the
    message, the process runs and the lock of the registry is free,
    [Publish] returns [ErrHandlerNotFound] and leaves the world as it
    is: no handler is called, nothing is put on a channel, the trace and
    the registry are unchanged. *)
Theorem Publish_without_handler queueSize ops e w ctx m o1 o2 :
  run ops (New queueSize, world0) = (e, w) →
  exited w = false → locked w = false →
  registrations (type_String (v_type m)) ops = [] →
  Publish e ctx (Some m) o1 o2 w = (w, Returns (Some ErrHandlerNotFound)).
Proof.
  intros Hrun Halive Hfree Hreg. apply Publish_not_registered; [|done].
  apply (entries_nil _ e w).
  - apply reachable_ok. by exists queueSize, ops.
  - by rewrite (entries_reachable _ queueSize ops e w Hrun).
Qed.

(** [TestBus_HandlerNotFound]: [New()] and no [Subscribe]. *)
Lemma Publish_without_handler_witness :
  Publish (New []) (Some background) (Some query) in_order in_order world0
  = (world0, Returns (Some ErrHandlerNotFound)).
Proof.
  apply (Publish_without_handler [] [] (New []) world0 (Some background) query);
    reflexivity.
Defined.

(** ** Registration *)

(** What [subscribe] does with a non-nil argument: it answers an error,
    and leaves the registry and the world alone, exactly when the
    argument is not a function, or has fewer than two parameters, or has
    a first parameter that does not print as [context.Context];
    otherwise it goes on to register the function. *)
Lemma subscribe_rejects_iff e f async w :
  (∃ err, subscribe e (Some f) async w = (e, w, Returns (Some err)))
  ↔ kind (v_type f) ≠ Func
    ∨ (NumIn (v_type f) < 2)%nat
    ∨ (∃ in0, In (v_type f) 0 = Some in0 ∧ type_String in0 ≠ "context.Context").
Proof.
  split.
  - intros [err Hsub].
    destruct (decide (validateHandler (Some f) = Returns None)) as [Hv|Hv].
    + destruct (accepted_has_key f Hv) as [key Hk].
      rewrite (subscribe_accepted _ _ _ _ key) in Hsub by done.
      by destruct (locked w).
    + rewrite validateHandler_accepts in Hv.
      destruct (decide (kind (v_type f) = Func)) as [Hk|Hk]; [|by left].
      destruct (decide (NumIn (v_type f) < 2)%nat) as [Hn|Hn]; [by right; left|].
      right; right.
      destruct (v_type f) as [| |ins outs]; simpl in *; try lia.
      destruct ins as [|in0 ins]; simpl in *; [lia|].
      exists in0. split; [done|]. intros Hs. apply Hv.
      split_and!; [done|lia|by rewrite Hs].
  - intros Hbad.
    destruct (validateHandler_returns f) as [[err|] Hv].
    + exists err. rewrite subscribe_rejected by (by rewrite Hv). by rewrite Hv.
    + apply validateHandler_accepts in Hv as (Hk & Hn & Hs).
      destruct Hbad as [?|[?|(in0 & Hin & Hne)]]; [done|lia|].
      rewrite Hin in Hs. simpl in Hs. by injection Hs.
Qed.

(** C3.  The nil argument is not callable, yet [Subscribe] and
    [SubscribeAsync] do not answer it with an error: [validateHandler]
    calls [Kind()] on the nil [reflect.Type] and the call panics. *)
Theorem Subscribe_nil_panics e w :
  Subscribe e None w = (e, w, Panics NilDereference)
  ∧ SubscribeAsync e None w = (e, w, Panics NilDereference).
Proof. split; reflexivity. Qed.

(** C9.  [MustSubscribe] and [MustSubscribeAsync] make the registration
    of [Subscribe] and [SubscribeAsync]: when those return no error the
    [Must] variants leave the same bus and world and return; when those
    return an error the [Must] variants leave the same (unchanged) bus
    and world and panic with that error. *)
Theorem Must_variants_panic_on_error e fn w :
  (∀ e' w', Subscribe e fn w = (e', w', Returns None) →
            MustSubscribe e fn w = (e', w', Returns None))
  ∧ (∀ e' w', SubscribeAsync e fn w = (e', w', Returns None) →
              MustSubscribeAsync e fn w = (e', w', Returns None))
  ∧ (∀ e' w' err, Subscribe e fn w = (e', w', Returns (Some err)) →
       e' = e ∧ w' = w ∧ MustSubscribe e fn w = (e, w, Panics (PanicValue err)))
  ∧ (∀ e' w' err, SubscribeAsync e fn w = (e', w', Returns (Some err)) →
       e' = e ∧ w' = w ∧ MustSubscribeAsync e fn w = (e, w, Panics (PanicValue err))).
Proof.
  assert (∀ async e' w' err,
            subscribe e fn async w = (e', w', Returns (Some err)) → e' = e ∧ w' = w)
    as Hsame.
  { intros async e' w' err Hsub.
    destruct (decide (validateHandler fn = Returns None)) as [Hv|Hv].
    - destruct fn as [f|]; [|done].
      destruct (accepted_has_key f Hv) as [key Hk].
      rewrite (subscribe_accepted _ _ _ _ key) in Hsub by done.
      by destruct (locked w).
    - rewrite subscribe_rejected in Hsub by done. by injection Hsub as -> -> _. }
  unfold MustSubscribe, MustSubscribeAsync, Subscribe, SubscribeAsync.
  split_and!.
  - intros e' w' Hsub. by rewrite Hsub.
  - intros e' w' Hsub. by rewrite Hsub.
  - intros e' w' err Hsub. destruct (Hsame _ _ _ _ Hsub) as [-> ->].
    by rewrite Hsub.
  - intros e' w' err Hsub. destruct (Hsame _ _ _ _ Hsub) as [-> ->].
    by rewrite Hsub.
Qed.

Lemma Must_variants_panic_on_error_witness :
  MustSubscribe (New []) (Some not_a_func) world0
  = (New [], world0, Panics (PanicValue (errors_New "'string' is not a function")))
  ∧ MustSubscribeAsync (New []) (Some (handler_void 1)) world0
    = SubscribeAsync (New []) (Some (handler_void 1)) world0.
Proof.
  destruct (Must_variants_panic_on_error (New []) (Some not_a_func) world0)
    as (_ & _ & Herr & _).
  destruct (Must_variants_panic_on_error (New []) (Some (handler_void 1)) world0)
    as (_ & Hok & _).
  split.
  - apply (Herr (New []) world0 (errors_New "'string' is not a function")).
    reflexivity.
  - rewrite (Hok _ _ eq_refl). reflexivity.
Defined.

(** ** The capacity of the queues *)

(** Whatever capacity the bus was made with, the channel [subscribe]
    makes for an asynchronous handler has the default capacity. *)
Lemma async_queue_capacity e w key hs h :
  bus_ok e w → items (bus_handlers e) !! key = Some hs → h ∈ hs →
  isAsync h = true →
  ∃ q c, queue h = Some q ∧ chans w !! q = Some c
         ∧ cap c = defaultAsyncHandlerQueueSize ∧ receiver c = Handler h.
Proof.
  intros Hok Hl Hin Ha. destruct (Hok key hs Hl) as [_ Hhs].
  rewrite Forall_forall in Hhs.
  destruct (handler_ok_queue key w h (Hhs h Hin) Ha) as (q & Hq & _ & Hw).
  apply wiring_lookup in Hw as (c & Hc & Hcap & Hrecv). by exists q, c.
Qed.

(** C6.  A bus made by [New(5)] keeps 5 as its [queueSize], but the
    channel of a handler then registered by [SubscribeAsync] has
    capacity 1000: [subscribe] passes [defaultAsyncHandlerQueueSize] to
    [make] and never reads [queueSize]. *)
Theorem async_queue_ignores_queueSize :
  let '(e, w, err) := SubscribeAsync (New [5]) (Some (handler_void 1)) world0 in
  err = Returns None ∧ queueSize e = 5 ∧ cap <$> chans w = [1000].
Proof. vm_compute. done. Qed.

(** ** A synchronous handler without a result *)

(** C8.  [Subscribe] accepts a handler declared without a result, as the
    README shows it; the next [Publish] of a matching message calls it
    and then panics on [result[0]], the call having returned no value.
    This is so whatever the orders of the two loops over [Iter]. *)
Theorem Publish_void_handler_panics o1 o2 :
  let '(e, w, err) := Subscribe (New []) (Some (handler_void 1)) world0 in
  err = Returns None
  ∧ (Publish e (Some background) (Some query) o1 o2 w).2 = Panics (IndexOutOfRange 0 0)
  ∧ calls (trace (Publish e (Some background) (Some query) o1 o2 w).1)
    = [(1%nat, {| p_ctx := Some background; p_msg := ValueOf query |})].
Proof.
  destruct (Subscribe (New []) (Some (handler_void 1)) world0) as [[e w] err] eqn:Hsub.
  vm_compute in Hsub. injection Hsub as <- <- <-.
  split; [done|].
  match goal with |- context [Publish ?e ?c ?m o1 o2 ?w] =>
    assert (Publish e c m o1 o2 w
            = (abandon (behind "*bus_test.GetUserQuery" (permute o2 (Iter (bus_handlers e))))
                 (log (EvCall 1 query_params) world0),
               Panics (IndexOutOfRange 0 0))) as ->
  end.
  { by rewrite (Publish_registered _ _ _ _ _ _
                  [new_handler (handler_void 1) false world0]). }
  cbn [fst snd]. split; [done|]. by rewrite trace_abandon.
Qed.

(** ** What [Publish] returns *)

(** The outcome of a [Publish] that the process survives, on a sound bus
    with the lock free, is decided by the synchronous functions of the
    entry of the key. *)
Lemma Publish_outcome e w ctx m o1 o2 hs :
  bus_ok e w → locked w = false →
  items (bus_handlers e) !! type_String (v_type m) = Some hs →
  exited (Publish e ctx (Some m) o1 o2 w).1 = false →
  (Publish e ctx (Some m) o1 o2 w).2
  = sync_outcome (fns false hs) {| p_ctx := ctx; p_msg := ValueOf m |}.
Proof.
  intros Hok Hfree Hl Halive.
  destruct (Publish_running e w ctx m o1 o2 hs Hok Hfree Hl Halive)
    as (w1 & A & _ & _ & _ & _ & ->).
  rewrite <- (call_sync_outcome hs _ w1).
  by destruct (call_sync hs _ w1) as [w2 [o|]].
Qed.

(** C5.  What a [Publish] that the process survives returns, the lock of
    the registry being free, is decided by the synchronous handlers
    registered for the type of the message, whatever the asynchronous
    handlers are and whatever they return; with asynchronous handlers
    only, it returns no error. *)
Theorem Publish_ignores_async_results queueSize ops e w ctx m o1 o2 :
  run ops (New queueSize, world0) = (e, w) →
  locked w = false →
  exited (Publish e ctx (Some m) o1 o2 w).1 = false →
  registrations (type_String (v_type m)) ops ≠ [] →
  let p := {| p_ctx := ctx; p_msg := ValueOf m |} in
  let fs := registered false (type_String (v_type m)) ops in
  (Publish e ctx (Some m) o1 o2 w).2 = sync_outcome fs p
  ∧ (fs = [] → (Publish e ctx (Some m) o1 o2 w).2 = Returns None).
Proof.
  intros Hrun Hfree Halive Hreg p fs.
  assert ((Publish e ctx (Some m) o1 o2 w).2 = sync_outcome fs p) as Hout.
  { assert (bus_ok e w) as Hok by (apply reachable_ok; by exists queueSize, ops).
    assert (live w) as Hlive.
    { split; [|done]. destruct (exited w) eqn:He; [|done].
      by rewrite exited_Publish_mono in Halive. }
    rewrite <- (entries_reachable _ queueSize ops e w Hrun Hlive) in Hreg.
    destruct (entries_not_nil _ _ Hreg) as (hs & Hl & _).
    assert (fns false hs = fs) as Hfs by (by eapply fns_registered).
    by rewrite (Publish_outcome e w ctx m o1 o2 hs), Hfs. }
  split; [done|]. intros Hnil. by rewrite Hout, Hnil.
Qed.

(** [TestBus_SubscribeAsync_DoesNotRecordError]: the only handler is
    asynchronous and returns an error. *)
Lemma Publish_ignores_async_results_witness :
  (Publish (run [Sub (Some (handler_failing 1 "failed to get user")) true]
              (New [], world0)).1 (Some background) (Some query) in_order in_order
           (run [Sub (Some (handler_failing 1 "failed to get user")) true]
              (New [], world0)).2).2
  = Returns None.
Proof.
  destruct (Publish_ignores_async_results []
              [Sub (Some (handler_failing 1 "failed to get user")) true]
              (run [Sub (Some (handler_failing 1 "failed to get user")) true]
                 (New [], world0)).1
              (run [Sub (Some (handler_failing 1 "failed to get user")) true]
                 (New [], world0)).2
              (Some background) query in_order in_order) as [_ Hnil].
  - reflexivity.
  - reflexivity.
  - reflexivity.
  - vm_compute. discriminate.
  - apply Hnil. reflexivity.
Defined.

(** ** Values and pointers are routed apart *)

Lemma type_String_TPtr_ne t : type_String (TPtr t) ≠ type_String t.
Proof.
  intros Heq. apply (f_equal String.length) in Heq.
  change (S (String.length (type_String t)) = String.length (type_String t)) in Heq.
  lia.
Qed.

(** C7.  A function whose second parameter is the pointer type of the
    message's type, or whose second parameter's pointer type is the type
    of the message, has another routing key than the message.
    Registering it changes nothing for the handlers of that message: in
    every world and whatever the orders of the loops, [Publish] on the
    bus with the function ends as it ends on the bus without it, with
    the same channels and the same trace, so it neither calls the
    function nor puts anything on its channel; the two differ at most in
    whether the goroutine of [Iter] keeps the lock when a loop is left
    early, and not at all when [Publish] returns nil.  When nothing else
    is registered for the message, [Publish] returns
    [ErrHandlerNotFound] and leaves the world as it is, unless the lock
    is kept already, when it waits for it. *)
Theorem pointer_and_value_are_distinct_keys e w f async ctx m in1 o1 o2 w' :
  In (v_type f) 1 = Some in1 →
  in1 = TPtr (v_type m) ∨ v_type m = TPtr in1 →
  let e' := (subscribe e (Some f) async w).1.1 in
  handler_key f ≠ Some (type_String (v_type m))
  ∧ (Publish e' ctx (Some m) o1 o2 w').2 = (Publish e ctx (Some m) o1 o2 w').2
  ∧ same_but_lock (Publish e' ctx (Some m) o1 o2 w').1 (Publish e ctx (Some m) o1 o2 w').1
  ∧ ((Publish e ctx (Some m) o1 o2 w').2 = Returns None →
     Publish e' ctx (Some m) o1 o2 w' = Publish e ctx (Some m) o1 o2 w')
  ∧ (items (bus_handlers e) !! type_String (v_type m) = None →
     Publish e' ctx (Some m) o1 o2 w'
     = (w', if locked w' then Blocks else Returns (Some ErrHandlerNotFound))).
Proof.
  intros Hin Hform e'.
  assert (handler_key f ≠ Some (type_String (v_type m))) as Hkey.
  { unfold handler_key. rewrite Hin. simpl. intros [= Heq].
    destruct Hform as [->|Hm].
    - by apply type_String_TPtr_ne in Heq.
    - rewrite Hm in Heq. symmetry in Heq. by apply type_String_TPtr_ne in Heq. }
  assert (items (bus_handlers e') !! type_String (v_type m)
          = items (bus_handlers e) !! type_String (v_type m)) as Hsame.
  { unfold e'.
    destruct (decide (validateHandler (Some f) = Returns None)) as [Hv|Hv];
      [|by rewrite subscribe_rejected].
    destruct (accepted_has_key f Hv) as [key Hk].
    rewrite (subscribe_accepted _ _ _ _ key) by done.
    destruct (locked w); cbn [fst bus_handlers]; [done|].
    apply items_Add_ne. intros ->. by rewrite Hk in Hkey. }
  destruct (Publish_same_entry e e' ctx m o1 o2 o1 o2 w' Hsame)
    as (Hout & Hworld & Hnil).
  split_and!; [done..|].
  intros Hnone. destruct (locked w') eqn:Hlocked; [by apply Publish_locked|].
  apply Publish_not_registered; [|done]. by rewrite Hsame.
Qed.

Lemma pointer_and_value_are_distinct_keys_witness :
  Publish (Subscribe (New []) (Some (handler_nil 1)) world0).1.1
    (Some background) (Some query_by_value) in_order in_order world0
  = (world0, Returns (Some ErrHandlerNotFound)).
Proof.
  destruct (pointer_and_value_are_distinct_keys (New []) world0 (handler_nil 1)
              false (Some background) query_by_value (TPtr GetUserQuery)
              in_order in_order world0)
    as (_ & _ & _ & _ & Hnone).
  - reflexivity.
  - left. reflexivity.
  - apply Hnone. reflexivity.
Defined.

(** ** What is put on a channel is eventually handled *)

(** The goroutine of channel [q] calls [f]; [p] is a parameter slice on
    which the call of [f] goes through.  From a world in which [p] waits
    on [q], every step of the bus leads to a world in which [p] still
    waits on [q] or the goroutine has called [f] with it. *)
Section Delivery.
Variables (q : nat) (f : value) (p : params).
Hypothesis Hcall : ∃ result, Call f p = inl result.

Definition delivered : event := EvWorkerCall q (v_ptr f) p.

Definition serves (w : world) : Prop := ∃ n, wiring w !! q = Some (n, f).

(** [w'] comes after [w]: same wiring, a longer trace, and [p] is not
    lost. *)
Definition keeps (w w' : world) : Prop :=
  wiring w' = wiring w ∧
  ∃ d, trace w' = (trace w ++ d)%list
       ∧ (p ∈ pending q w → p ∈ pending q w' ∨ delivered ∈ d).

Lemma keeps_refl w : keeps w w.
Proof. split; [done|]. exists []. rewrite app_nil_r. auto. Qed.

Lemma keeps_trans w1 w2 w3 : keeps w1 w2 → keeps w2 w3 → keeps w1 w3.
Proof.
  intros [Hw12 (d1 & Hd1 & Hp1)] [Hw23 (d2 & Hd2 & Hp2)].
  split; [congruence|]. exists (d1 ++ d2)%list.
  rewrite Hd2, Hd1, <- app_assoc. split; [done|].
  intros Hp. destruct (Hp1 Hp) as [Hp'|Hin].
  - destruct (Hp2 Hp') as [?|?]; [by left|right]. apply elem_of_app. by right.
  - right. apply elem_of_app. by left.
Qed.

Lemma serves_keeps w w' : serves w → keeps w w' → serves w'.
Proof. intros [n Hn] [Hw _]. exists n. by rewrite Hw. Qed.

Lemma keeps_log ev w : keeps w (log ev w).
Proof. split; [done|]. exists [ev]. split; [done|]. by left. Qed.

Lemma keeps_abandon rest w : keeps w (abandon rest w).
Proof.
  split; [apply wiring_abandon|]. exists [].
  rewrite app_nil_r, trace_abandon. split; [done|].
  intros Hp. left. unfold pending in *. by rewrite chans_abandon.
Qed.

Lemma pending_set_buf w q' c b :
  chans w !! q' = Some c →
  pending q (set_buf q' c b w) = if decide (q' = q) then b else pending q w.
Proof.
  intros Hq'. unfold pending, set_buf; simpl. destruct (decide (q' = q)) as [->|Hne].
  - rewrite list_lookup_insert_eq; [done|]. by eapply lookup_lt_Some.
  - by rewrite list_lookup_insert_ne.
Qed.

Lemma keeps_worker_step q' w : serves w → keeps w (worker_step q' w).
Proof.
  intros [n Hn]. split; [apply wiring_worker_step|].
  unfold worker_step. destruct (exited w); [exists []; rewrite app_nil_r; auto|].
  destruct (chans w !! q') as [c|] eqn:Hq';
    [|exists []; rewrite app_nil_r; auto].
  destruct (buf c) as [|p' rest] eqn:Hbuf; [exists []; rewrite app_nil_r; auto|].
  assert (p ∈ pending q w →
          p ∈ pending q (set_buf q' c rest w) ∨ (q' = q ∧ p' = p ∧ receiver c = f))
    as Hkeep.
  { intros Hp. rewrite (pending_set_buf w q' c rest) by done.
    destruct (decide (q' = q)) as [->|Hne]; [|by left].
    unfold pending in Hp. rewrite Hq', Hbuf in Hp.
    apply elem_of_cons in Hp as [<-|Hp]; [right|by left].
    apply wiring_lookup in Hn as (c' & Hc' & _ & Hrecv).
    rewrite Hq' in Hc'. by injection Hc' as <-. }
  destruct (Call (receiver c) p') as [result|pn] eqn:Hc.
  - eexists. split; [done|]. intros Hp.
    destruct (Hkeep Hp) as [?|(-> & -> & ->)]; [by left|right].
    by apply list_elem_of_singleton.
  - eexists. split; [done|]. intros Hp.
    destruct (Hkeep Hp) as [?|(-> & -> & Hf)]; [by left|].
    rewrite Hf in Hc. destruct Hcall as [result Hr]. congruence.
Qed.

Lemma keeps_send queue p' w : serves w → keeps w (send queue p' w).1.
Proof.
  intros Hserves. unfold send. destruct queue as [q'|]; [|apply keeps_refl].
  destruct (chans w !! q') as [c|] eqn:Hq'; [|apply keeps_refl].
  set (w1 := if bool_decide _ then w else worker_step q' w).
  assert (keeps w w1) as Hk1.
  { unfold w1. case_bool_decide; [apply keeps_refl|by apply keeps_worker_step]. }
  destruct (exited w1); [done|].
  destruct (chans w1 !! q') as [c1|] eqn:Hq1; [|done].
  simpl. eapply keeps_trans; [done|].
  split; [rewrite wiring_log; by apply wiring_set_buf|].
  eexists. split; [done|]. intros Hp. left.
  change (pending q (log ?ev ?w)) with (pending q w).
  rewrite (pending_set_buf w1 q' c1) by done.
  destruct (decide (q' = q)) as [->|Hne]; [|done].
  unfold pending in Hp. rewrite Hq1 in Hp. apply elem_of_app. by left.
Qed.

(** After a send of [p] on [q] that completes, [p] waits on [q]. *)
Lemma send_pending w :
  (send (Some q) p w).2 = None → p ∈ pending q (send (Some q) p w).1.
Proof.
  unfold send. destruct (chans w !! q) as [c|] eqn:Hq; [|done].
  set (w1 := if bool_decide _ then w else worker_step q w).
  destruct (exited w1); [done|].
  destruct (chans w1 !! q) as [c1|] eqn:Hq1; [|done].
  intros _. simpl. change (pending q (log ?ev ?w)) with (pending q w).
  rewrite (pending_set_buf w1 q c1) by done.
  rewrite decide_True by done. apply elem_of_app. right. by left.
Qed.

Lemma keeps_send_async hs p' w : serves w → keeps w (send_async hs p' w).1.
Proof.
  revert w. induction hs as [|h hs IH]; intros w Hserves; simpl.
  - apply keeps_refl.
  - destruct (isAsync h); [|by apply IH].
    pose proof (keeps_send (queue h) p' w Hserves) as Hk.
    destruct (send (queue h) p' w) as [w0 [o|]]; [done|]. simpl in Hk.
    eapply keeps_trans; [done|]. apply IH. by eapply serves_keeps.
Qed.

Lemma keeps_called fs p' w : keeps w (called fs p' w).
Proof. split; [done|]. eexists. split; [done|]. by left. Qed.

Lemma drain_exited n w : exited w = true → drain n q w = w.
Proof.
  intros He. induction n as [|n IH]; [done|].
  simpl. by rewrite worker_step_exited.
Qed.

Lemma length_pending_worker_step w :
  exited w = false →
  length (pending q (worker_step q w)) = pred (length (pending q w)).
Proof.
  intros He. unfold worker_step. rewrite He.
  destruct (chans w !! q) as [c|] eqn:Hq.
  - destruct (buf c) as [|p' rest] eqn:Hbuf.
    + unfold pending. by rewrite Hq, Hbuf.
    + assert (pending q w = p' :: rest) as -> by (unfold pending; by rewrite Hq).
      destruct (Call (receiver c) p');
        change (pending q (exit ?w)) with (pending q w);
        change (pending q (log ?ev ?w)) with (pending q w);
        rewrite (pending_set_buf w q c rest) by done;
        by rewrite decide_True.
  - unfold pending. by rewrite Hq.
Qed.

(** When the goroutine of [q] has emptied the channel, it has called
    [f] with [p], unless a panic in it has ended the process before. *)
Lemma drain_delivers n w :
  serves w → (length (pending q w) ≤ n)%nat →
  ∃ d, trace (drain n q w) = (trace w ++ d)%list
       ∧ (p ∈ pending q w → delivered ∈ d ∨ exited (drain n q w) = true).
Proof.
  revert w. induction n as [|n IH]; intros w Hserves Hlen.
  - exists []. simpl. rewrite app_nil_r. split; [done|].
    destruct (pending q w); [by intros ?%elem_of_nil|simpl in Hlen; lia].
  - destruct (exited w) eqn:He.
    { rewrite drain_exited by done. exists []. rewrite app_nil_r. auto. }
    simpl. pose proof (keeps_worker_step q w Hserves) as Hk.
    pose proof Hk as [_ (d1 & Hd1 & Hp1)].
    destruct (IH (worker_step q w)) as (d2 & Hd2 & Hp2).
    { by eapply serves_keeps. }
    { rewrite length_pending_worker_step by done. lia. }
    exists (d1 ++ d2)%list. rewrite Hd2, Hd1, <- app_assoc. split; [done|].
    intros Hp. destruct (Hp1 Hp) as [Hp'|?].
    + destruct (Hp2 Hp') as [?|?]; [left|by right]. apply elem_of_app. by right.
    + left. apply elem_of_app. by left.
Qed.

Lemma run_worker_delivers w :
  serves w →
  ∃ d, trace (run_worker q w) = (trace w ++ d)%list
       ∧ (p ∈ pending q w → delivered ∈ d ∨ exited (run_worker q w) = true).
Proof. intros Hserves. by apply drain_delivers. Qed.

(** The first phase of [Publish] with [p], run to its end over a slice
    that holds a handler whose channel is [q]: at its end [p] waits on
    [q], or has been handled already. *)
Lemma send_async_delivers hs h w w1 :
  serves w → h ∈ hs → isAsync h = true → queue h = Some q →
  send_async hs p w = (w1, None) →
  ∃ d, trace w1 = (trace w ++ d)%list ∧ (p ∈ pending q w1 ∨ delivered ∈ d).
Proof.
  revert w. induction hs as [|h' hs IH]; intros w Hserves Hin Ha Hq Hsend.
  - by apply elem_of_nil in Hin.
  - apply elem_of_cons in Hin as [<-|Hin].
    + simpl in Hsend. rewrite Ha, Hq in Hsend.
      pose proof (keeps_send (Some q) p w Hserves) as Hk0.
      pose proof (send_pending w) as Hp0.
      destruct (send (Some q) p w) as [w0 [o|]]; [done|]. simpl in *.
      pose proof Hk0 as [_ (d0 & Hd0 & _)].
      assert (serves w0) as Hserves0 by (by eapply serves_keeps).
      pose proof (keeps_send_async hs p w0 Hserves0) as [_ (d & Hd & Hp)].
      rewrite Hsend in Hd, Hp. simpl in *.
      exists (d0 ++ d)%list. rewrite Hd, Hd0, <- app_assoc. split; [done|].
      destruct (Hp (Hp0 eq_refl)) as [?|?]; [by left|right].
      apply elem_of_app. by right.
    + simpl in Hsend. destruct (isAsync h'); [|by apply IH].
      pose proof (keeps_send (queue h') p w Hserves) as Hk0.
      destruct (send (queue h') p w) as [w0 [o|]]; [done|]. simpl in *.
      pose proof Hk0 as [_ (d0 & Hd0 & _)].
      destruct (IH w0) as (d & Hd & Hp); [by eapply serves_keeps|done..|].
      exists (d0 ++ d)%list. rewrite Hd, Hd0, <- app_assoc. split; [done|].
      destruct Hp as [?|?]; [by left|right]. apply elem_of_app. by right.
Qed.
End Delivery.

(** ** The two phases of [Publish] *)

(** C4.  On every bus, after any history that leaves the lock of the
    registry free, a [Publish] for a type that has a handler, if the
    process survives it, returns or panics, and before that it first
    puts the context and the message on the channel of every
    asynchronous handler of that type, in the order of their
    registration, and only then calls synchronous handlers: the trace
    grows by the events [A] of the first phase, among which there is no
    call of a synchronous handler, followed by the events of the second
    phase, which are calls only.  This is so whatever the synchronous
    handlers answer, an error included, and whatever the orders of the
    two loops over [Iter].  Every asynchronous handler of the type whose
    call with these parameters goes through is then called with them by
    its goroutine, at the latest when that goroutine has emptied its
    channel, unless a panic in that goroutine has ended the process
    before. *)
Theorem Publish_async_before_sync queueSize ops e w ctx m hs o1 o2 :
  run ops (New queueSize, world0) = (e, w) →
  locked w = false →
  exited (Publish e ctx (Some m) o1 o2 w).1 = false →
  items (bus_handlers e) !! type_String (v_type m) = Some hs →
  let p := {| p_ctx := ctx; p_msg := ValueOf m |} in
  ∃ w' o A called_fs,
    Publish e ctx (Some m) o1 o2 w = (w', o) ∧ o ≠ Blocks ∧ o ≠ Exits
    ∧ trace w' = (trace w ++ A ++ ((λ f, EvCall (v_ptr f) p) <$> called_fs))%list
    ∧ calls A = []
    ∧ sends A = omap (λ h, if isAsync h then (λ q, (q, p)) <$> queue h else None) hs
    ∧ Forall (λ h, isAsync h = true → is_Some (queue h)) hs
    ∧ called_fs `prefix_of` registered false (type_String (v_type m)) ops
    ∧ ∀ h q, h ∈ hs → isAsync h = true → queue h = Some q →
        (∃ result, Call (Handler h) p = inl result) →
        ∃ d, trace (run_worker q w') = (trace w ++ d)%list
             ∧ (EvWorkerCall q (v_ptr (Handler h)) p ∈ d
                ∨ exited (run_worker q w') = true).
Proof.
  intros Hrun Hfree Halive Hl p.
  assert (bus_ok e w) as Hok by (apply reachable_ok; by exists queueSize, ops).
  assert (live w) as Hlive.
  { split; [|done]. destruct (exited w) eqn:He; [|done].
    by rewrite exited_Publish_mono in Halive. }
  destruct (Hok _ hs Hl) as [_ Hhs].
  pose proof (Publish_outcome e w ctx m o1 o2 hs Hok Hfree Hl Halive) as Hout.
  destruct (Publish_running e w ctx m o1 o2 hs Hok Hfree Hl Halive)
    as (w1 & A & Hsend & HA & HcA & HsA & Hpub). fold p in Hsend, HsA, Hpub, Hout.
  destruct (call_sync_called hs p w1) as (fs & Hfs & Hpre).
  set (rest := if (call_sync hs p w1).2 is Some _
               then behind (type_String (v_type m)) (permute o2 (Iter (bus_handlers e)))
               else []).
  assert (Publish e ctx (Some m) o1 o2 w
          = (abandon rest (called fs p w1), sync_outcome (fns false hs) p)) as Hpub'.
  { rewrite <- Hout, Hpub. unfold rest.
    destruct (call_sync hs p w1) as [w2 [o'|]]; simpl in *; by subst w2. }
  exists (abandon rest (called fs p w1)), (sync_outcome (fns false hs) p), A, fs.
  split_and!.
  - done.
  - apply sync_outcome_ends.
  - apply sync_outcome_ends.
  - rewrite trace_abandon. unfold called. simpl. by rewrite HA, <- app_assoc.
  - done.
  - done.
  - eapply Forall_impl; [exact Hhs|]. intros h Hh Ha.
    destruct (handler_ok_queue _ w h Hh Ha) as (q & -> & _). by eexists.
  - by rewrite <- (fns_registered false _ queueSize ops e w hs).
  - intros h q Hin Ha Hq Hcall.
    rewrite Forall_forall in Hhs.
    destruct (handler_ok_queue _ w h (Hhs h Hin) Ha) as (q' & Hq' & _ & Hw).
    rewrite Hq in Hq'. injection Hq' as <-.
    assert (serves q (Handler h) w) as Hserves by (by eexists).
    destruct (send_async_delivers q (Handler h) p Hcall hs h w w1
                Hserves Hin Ha Hq Hsend) as (d1 & Hd1 & Hp1).
    assert (keeps q (Handler h) p w w1) as Hk1.
    { pose proof (keeps_send_async q (Handler h) p Hcall hs p w Hserves) as Hk.
      by rewrite Hsend in Hk. }
    assert (keeps q (Handler h) p w1 (abandon rest (called fs p w1))) as Hk2.
    { eapply keeps_trans; [apply keeps_called|apply keeps_abandon]. }
    assert (serves q (Handler h) (abandon rest (called fs p w1))) as Hserves2.
    { apply (serves_keeps q (Handler h) p w1); [|done].
      by apply (serves_keeps q (Handler h) p w). }
    destruct (run_worker_delivers q (Handler h) p Hcall _ Hserves2)
      as (d2 & Hd2 & Hp2).
    destruct Hk2 as [_ (d3 & Hd3 & Hp3)].
    eexists. split.
    + rewrite Hd2, Hd3, Hd1, <- !app_assoc. done.
    + destruct Hp1 as [Hp|Hin1].
      * destruct (Hp3 Hp) as [Hp'|Hin3].
        -- destruct (Hp2 Hp') as [?|?]; [left|by right].
           apply elem_of_app. right. apply elem_of_app. by right.
        -- left. apply elem_of_app. right. apply elem_of_app. by left.
      * left. apply elem_of_app. by left.
Qed.

Lemma Publish_async_before_sync_witness :
  ∃ w' A called_fs,
    Publish (run ops_mixed (New [], world0)).1 (Some background) (Some query)
      in_order in_order (run ops_mixed (New [], world0)).2
    = (w', Returns (Some (errors_New "some error")))
    ∧ trace w' = (A ++ ((λ f, EvCall (v_ptr f) query_params) <$> called_fs))%list
    ∧ sends A = [(0%nat, query_params)]
    ∧ ∃ d, trace (run_worker 0 w') = d ∧ EvWorkerCall 0 2 query_params ∈ d.
Proof.
  destruct (Publish_async_before_sync [] ops_mixed
              (run ops_mixed (New [], world0)).1 (run ops_mixed (New [], world0)).2
              (Some background) query
              [new_handler (handler_failing 1 "some error") false world0;
               new_handler (handler_void 2) true world0] in_order in_order)
    as (w' & o & A & fs & Hpub & _ & _ & Htrace & _ & Hsends & _ & _ & Hrun).
  - reflexivity.
  - reflexivity.
  - vm_compute. reflexivity.
  - reflexivity.
  - exists w', A, fs.
    assert (o = Returns (Some (errors_New "some error"))) as ->.
    { apply (f_equal snd) in Hpub. cbn [snd] in Hpub. rewrite <- Hpub.
      vm_compute. reflexivity. }
    split_and!; [exact Hpub|exact Htrace|exact Hsends|].
    destruct (Hrun (new_handler (handler_void 2) true world0) 0%nat)
      as (d & Hd & Hin).
    + right. left.
    + reflexivity.
    + reflexivity.
    + eexists. vm_compute. reflexivity.
    + exists d. split; [exact Hd|].
      destruct Hin as [Hin|Hexit]; [exact Hin|].
      apply (f_equal fst) in Hpub. cbn [fst] in Hpub. rewrite <- Hpub in Hexit.
      vm_compute in Hexit. discriminate.
Defined.

(** * Further properties of the registry and of the bus *)

(** ** [Add], [Get] and [Iter] together *)

(** The calls [cm.Add(key, value)] of a list, one after the other. *)
Definition add_all (adds : list (string * handler)) (cm : handlers) : handlers :=
  foldl (λ cm kv, Add kv.1 kv.2 cm) cm adds.

(** The values a list of calls of [Add] files under [key], oldest
    first. *)
Definition added (key : string) (adds : list (string * handler)) : list handler :=
  (filter (λ kv, kv.1 = key) adds).*2.

Lemma added_snoc key adds k h :
  added key (adds ++ [(k, h)])
  = (added key adds ++ if bool_decide (k = key) then [h] else [])%list.
Proof.
  unfold added. rewrite filter_app, fmap_app. f_equal.
  rewrite filter_cons, filter_nil. simpl.
  destruct (decide (k = key)) as [Heq|Hne].
  - by rewrite bool_decide_eq_true_2.
  - by rewrite bool_decide_eq_false_2.
Qed.

Lemma items_add_all key adds cm :
  items (add_all adds cm) !! key
  = match added key adds with
    | [] => items cm !! key
    | hs => Some (default [] (items cm !! key) ++ hs)%list
    end.
Proof.
  induction adds as [|[k h] adds IH] using rev_ind; [done|].
  unfold add_all in *. rewrite foldl_app. cbn [foldl fst snd]. rewrite added_snoc.
  destruct (decide (k = key)) as [->|Hne].
  - rewrite bool_decide_eq_true_2, items_Add_eq, IH by done.
    destruct (added key adds) as [|h0 hs].
    + simpl. by destruct (items cm !! key).
    + simpl. by rewrite <- app_assoc.
  - rewrite bool_decide_eq_false_2, items_Add_ne, IH, app_nil_r by done. done.
Qed.

(** X1.  On a registry that started empty, [Get] returns for every key
    the values that were added under that key, in the order of the
    calls of [Add], and [ok] tells whether there was such a call: no
    value is lost, moved to another key or reordered. *)
Theorem Get_add_all key adds :
  Get key (add_all adds newHandlers)
  = (added key adds, bool_decide (added key adds ≠ [])).
Proof.
  unfold Get. rewrite items_add_all. simpl. rewrite lookup_empty.
  by destruct (added key adds).
Qed.

(** X2.  [Iter] yields every key of the map exactly once, with the slice
    [Get] returns for it, and nothing else. *)
Theorem Iter_enumerates cm :
  NoDup (Key <$> Iter cm)
  ∧ ∀ key hs, {| Key := key; Value := hs |} ∈ Iter cm ↔ Get key cm = (hs, true).
Proof.
  split; [apply Iter_keys_NoDup|]. intros key hs. rewrite elem_of_Iter.
  unfold Get. destruct (items cm !! key) as [hs'|]; split; congruence.
Qed.

(** ** What the order of [Iter] decides *)

(** X3.  The order in which [Iter] yields the entries, which Go leaves
    open, decides nothing of what [Publish] returns, calls and sends:
    with other orders of its two loops [Publish] ends in the same way,
    with the same channels and the same trace.  It decides whether the
    lock is kept afterwards: on a free lock, [Publish] of a message with
    handlers leaves the lock kept exactly when it leaves a loop early,
    by a send that does not complete in the first, by an error or a
    panic in the second, while entries come after the entry of the
    message in that loop. *)
Theorem Iter_order_decides_the_lock_only e ctx m o1 o2 o1' o2' w :
  (Publish e ctx (Some m) o1' o2' w).2 = (Publish e ctx (Some m) o1 o2 w).2
  ∧ same_but_lock (Publish e ctx (Some m) o1' o2' w).1 (Publish e ctx (Some m) o1 o2 w).1
  ∧ (is_Some (items (bus_handlers e) !! type_String (v_type m)) →
     locked w = false →
     locked (Publish e ctx (Some m) o1 o2 w).1
     = match (Publish e ctx (Some m) o1 o2 w).2 with
       | Returns None => false
       | Blocks | Exits =>
           bool_decide (behind (type_String (v_type m))
                          (permute o1 (Iter (bus_handlers e))) ≠ [])
       | _ =>
           bool_decide (behind (type_String (v_type m))
                          (permute o2 (Iter (bus_handlers e))) ≠ [])
       end).
Proof.
  destruct (Publish_same_entry e e ctx m o1 o2 o1' o2' w eq_refl) as (Hout & Hworld & _).
  split_and!; [done..|]. intros [hs Hl] Hfree.
  rewrite (Publish_registered _ _ _ _ _ _ hs Hl Hfree). cbn zeta.
  pose proof (locked_send_async hs {| p_ctx := ctx; p_msg := ValueOf m |} w) as Hl1.
  pose proof (send_async_early hs {| p_ctx := ctx; p_msg := ValueOf m |} w) as He1.
  destruct (send_async hs _ w) as [w1 [o|]]; simpl in *.
  { rewrite locked_abandon, Hl1, Hfree.
    destruct (He1 o eq_refl) as [->| ->];
      by destruct (behind _ (permute o1 _)). }
  pose proof (locked_call_sync hs {| p_ctx := ctx; p_msg := ValueOf m |} w1) as Hl2.
  pose proof (call_sync_early hs {| p_ctx := ctx; p_msg := ValueOf m |} w1) as He2.
  destruct (call_sync hs _ w1) as [w2 [o|]]; simpl in *; [|congruence].
  rewrite locked_abandon, Hl2, Hl1, Hfree.
  destruct (He2 o eq_refl) as [[err ->]|[pn ->]];
    by destruct (behind _ (permute o2 _)).
Qed.

(** The failing handler for [*GetUserQuery] and a handler for another
    type: after the error, the lock is kept or free according to the
    order of the second loop. *)
Lemma Iter_order_decides_the_lock_only_witness :
  locked (Publish (run ops_two_types (New [], world0)).1 (Some background) (Some query)
            in_order in_order (run ops_two_types (New [], world0)).2).1 = true
  ∧ locked (Publish (run ops_two_types (New [], world0)).1 (Some background) (Some query)
              in_order reversed (run ops_two_types (New [], world0)).2).1 = false.
Proof.
  destruct (Iter_order_decides_the_lock_only
              (run ops_two_types (New [], world0)).1 (Some background) query
              in_order in_order in_order in_order
              (run ops_two_types (New [], world0)).2) as (_ & _ & Hfirst).
  destruct (Iter_order_decides_the_lock_only
              (run ops_two_types (New [], world0)).1 (Some background) query
              in_order reversed in_order in_order
              (run ops_two_types (New [], world0)).2) as (_ & _ & Hlast).
  split.
  - rewrite Hfirst; [vm_compute; reflexivity|by eexists|reflexivity].
  - rewrite Hlast; [vm_compute; reflexivity|by eexists|reflexivity].
Defined.

(** ** [subscribe] on any argument but nil *)

(** X4.  For a non-nil argument [subscribe] never panics: the calls
    [In(0)] of [validateHandler] and [In(1)] of [subscribe] are never
    out of range, because the check of [NumIn()] comes first.  It
    returns what [validateHandler] returns, an error or nil, unless the
    function is accepted and the lock is kept: then it waits for ever in
    [Add], with the registry as it was. *)
Theorem subscribe_never_panics e f async w :
  (∃ err, validateHandler (Some f) = Returns err)
  ∧ (subscribe e (Some f) async w).2
    = (if locked w && bool_decide (validateHandler (Some f) = Returns None)
       then Blocks else validateHandler (Some f))
  ∧ ((subscribe e (Some f) async w).2 = Blocks → (subscribe e (Some f) async w).1.1 = e).
Proof.
  split; [apply validateHandler_returns|].
  destruct (decide (validateHandler (Some f) = Returns None)) as [Hv|Hv].
  - destruct (accepted_has_key f Hv) as [key Hk].
    rewrite (subscribe_accepted _ _ _ _ key) by done.
    rewrite bool_decide_eq_true_2 by done. by destruct (locked w).
  - rewrite subscribe_rejected by done.
    rewrite bool_decide_eq_false_2, andb_false_r by done. done.
Qed.

Lemma subscribe_never_panics_witness :
  (subscribe (New []) (Some (handler_nil 1)) false
     (abandon [{| Key := "k"; Value := [] |}] world0)).1.1 = New [].
Proof.
  apply (subscribe_never_panics (New []) (handler_nil 1) false
           (abandon [{| Key := "k"; Value := [] |}] world0)).
  reflexivity.
Defined.

(** ** The registry only grows *)

(** X5.  Whatever is done with a bus, the handlers filed under a key
    stay, in their order, and what comes after them are registrations
    the history made for that key, in their order; when at the end of
    the history the process runs and the lock is free, so that every
    registration has got the lock, all of them are there.  There is no
    way to remove or to reorder a handler. *)
Theorem registry_only_grows key ops e w :
  (exited (run ops (e, w)).2 = false → locked (run ops (e, w)).2 = false →
   entries key (run ops (e, w)).1 = (entries key e ++ registrations key ops)%list)
  ∧ entries key e `prefix_of` entries key (run ops (e, w)).1
  ∧ ∃ regs, regs `sublist_of` registrations key ops
            ∧ entries key (run ops (e, w)).1 = (entries key e ++ regs)%list.
Proof.
  destruct (entries_run_sublist key ops e w) as (regs & Hsub & Hregs).
  split_and!.
  - intros He Hl. by apply entries_run.
  - rewrite Hregs. by apply prefix_app_r.
  - by exists regs.
Qed.

Lemma registry_only_grows_witness :
  entries "*bus_test.GetUserQuery" (run ops_chain (New [], world0)).1
  = [(handler_nil 1, false); (handler_failing 2 "some error", false);
     (handler_nil 3, false)].
Proof.
  destruct (registry_only_grows "*bus_test.GetUserQuery" ops_chain (New [])
              world0) as (Hall & _ & _).
  rewrite Hall; reflexivity.
Defined.

(** ** One channel and one goroutine for each asynchronous handler *)

(** The channels a history makes: one for each [SubscribeAsync] that
    [validateHandler] accepts. *)
Definition makes_channel (o : op) : bool :=
  match o with
  | Sub (Some f) true => bool_decide (validateHandler (Some f) = Returns None)
  | _ => false
  end.

Lemma length_chans_wiring w w' :
  wiring w' = wiring w → length (chans w') = length (chans w).
Proof. intros Hw. by rewrite <- !length_wiring, Hw. Qed.

Lemma length_chans_step e w o :
  length (chans (step (e, w) o).2)
  = (length (chans w) + if exited w then 0
                        else if makes_channel o then 1 else 0)%nat.
Proof.
  unfold step. simpl. destruct (exited w); simpl; [lia|].
  destruct o as [fn async|ctx msg o1 o2|q]; simpl.
  - destruct (decide (validateHandler fn = Returns None)) as [Hv|Hv].
    + destruct fn as [f|]; [|done].
      destruct (accepted_has_key f Hv) as [key Hk].
      rewrite (subscribe_accepted _ _ _ _ key) by done.
      assert (length (chans (new_world f async w))
              = (length (chans w) + if async then 1 else 0)%nat) as Hlen.
      { unfold new_world. destruct async; simpl; [by rewrite length_app|lia]. }
      destruct (locked w); cbn [fst snd]; rewrite Hlen; destruct async;
        rewrite ?bool_decide_eq_true_2 by done; done.
    + rewrite subscribe_rejected by done. simpl.
      destruct fn as [f|]; [|lia]. destruct async; [|lia].
      rewrite bool_decide_eq_false_2 by done. lia.
  - rewrite (length_chans_wiring w) by apply Publish_wiring. lia.
  - rewrite (length_chans_wiring w) by apply wiring_worker_step. lia.
Qed.

(** X6.  [subscribe] makes exactly one channel, and starts the one
    goroutine that serves it, for each asynchronous handler it accepts,
    and none otherwise: while the process runs, a history adds as many
    channels to the world as it has accepted calls of [SubscribeAsync];
    [Subscribe], a rejected registration, [Publish] and the goroutines
    add none.  No channel ever goes away. *)
Theorem one_channel_per_async_handler ops e w :
  (exited (run ops (e, w)).2 = false →
   length (chans (run ops (e, w)).2)
   = (length (chans w) + length (filter (λ o, makes_channel o = true) ops))%nat)
  ∧ (length (chans w) ≤ length (chans (run ops (e, w)).2))%nat
  ∧ (length (chans (run ops (e, w)).2)
     ≤ length (chans w) + length (filter (λ o, makes_channel o = true) ops))%nat.
Proof.
  revert e w. induction ops as [|o ops IH]; intros e w; simpl; [lia|].
  pose proof (length_chans_step e w o) as Hstep.
  pose proof (exited_run_mono [o] e w) as Hmono. simpl in Hmono.
  destruct (step (e, w) o) as [e1 w1]. simpl in Hstep, Hmono.
  destruct (IH e1 w1) as (Heq & Hge & Hle). rewrite filter_cons.
  split_and!.
  - intros He. rewrite (Heq He), Hstep.
    rewrite (Hmono (exited_run_mono ops e1 w1 He)).
    destruct (makes_channel o).
    + rewrite decide_True by done. simpl. lia.
    + rewrite decide_False by done. lia.
  - lia.
  - destruct (exited w), (makes_channel o);
      rewrite ?decide_True, ?decide_False by done; simpl; lia.
Qed.

(** [TestBus_MultipleAsyncHandlers]: two asynchronous handlers for the
    same type and one for another type. *)
Definition ops_async : list op :=
  [Sub (Some (handler_void 1)) true;
   Sub (Some (handler_void 2)) true;
   Sub (Some (handler_command 3)) true].

Lemma one_channel_per_async_handler_witness :
  length (chans (run ops_async (New [], world0)).2) = 3%nat.
Proof.
  destruct (one_channel_per_async_handler ops_async (New []) world0) as (Heq & _ & _).
  rewrite Heq; reflexivity.
Defined.

(** ** Every message sent to a handler is handled once, in order *)

(** What was sent on channel [q], and what its goroutine has taken from
    it, oldest first. *)
Definition sent (q : nat) (tr : list event) : list params :=
  omap (λ ev, match ev with
              | EvSend q' p => if decide (q' = q) then Some p else None
              | _ => None
              end) tr.

Definition taken (q : nat) (tr : list event) : list params :=
  omap (λ ev, match ev with
              | EvWorkerCall q' _ p | EvWorkerPanic q' p _ =>
                  if decide (q' = q) then Some p else None
              | _ => None
              end) tr.

(** What was sent on each channel is what its goroutine has taken,
    followed by what still waits in the channel. *)
Definition fifo (w : world) : Prop :=
  ∀ q, sent q (trace w) = (taken q (trace w) ++ pending q w)%list.

Lemma sent_snoc q tr ev :
  sent q (tr ++ [ev])
  = (sent q tr ++ match ev with
                  | EvSend q' p => if decide (q' = q) then [p] else []
                  | _ => []
                  end)%list.
Proof.
  unfold sent. rewrite omap_app. f_equal.
  destruct ev as [q' p'| | |]; try done. simpl. by destruct (decide (q' = q)).
Qed.

Lemma taken_snoc q tr ev :
  taken q (tr ++ [ev])
  = (taken q tr ++ match ev with
                   | EvWorkerCall q' _ p | EvWorkerPanic q' p _ =>
                       if decide (q' = q) then [p] else []
                   | _ => []
                   end)%list.
Proof.
  unfold taken. rewrite omap_app. f_equal.
  destruct ev as [| |q' f' p'|q' p' pn]; try done; simpl;
    by destruct (decide (q' = q)).
Qed.

Lemma fifo_same w w' : chans w' = chans w → trace w' = trace w → fifo w → fifo w'.
Proof. intros Hc Ht Hw q. unfold pending. rewrite Hc, Ht. apply Hw. Qed.

Lemma fifo_call f p w : fifo w → fifo (log (EvCall f p) w).
Proof.
  intros Hw q. unfold log; simpl. rewrite sent_snoc, taken_snoc, !app_nil_r.
  apply Hw.
Qed.

Lemma fifo_worker_step q' w : fifo w → fifo (worker_step q' w).
Proof.
  intros Hw q. unfold worker_step. destruct (exited w); [apply Hw|].
  destruct (chans w !! q') as [c|] eqn:Hq'; [|apply Hw].
  destruct (buf c) as [|p rest] eqn:Hbuf; [apply Hw|].
  specialize (Hw q).
  destruct (Call (receiver c) p);
    change (pending q (exit ?w)) with (pending q w);
    change (pending q (log ?ev ?w)) with (pending q w);
    rewrite (pending_set_buf q w q' c rest) by done;
    simpl; rewrite sent_snoc, taken_snoc;
    (destruct (decide (q' = q)) as [->|Hne];
     [unfold pending in Hw; rewrite Hq', Hbuf in Hw;
      rewrite app_nil_r, <- app_assoc; done
     |rewrite !app_nil_r; done]).
Qed.

Lemma fifo_send queue p w : fifo w → fifo (send queue p w).1.
Proof.
  intros Hw. unfold send. destruct queue as [q'|]; [|done].
  destruct (chans w !! q') as [c|] eqn:Hq'; [|done].
  set (w1 := if bool_decide _ then w else worker_step q' w).
  assert (fifo w1) as Hw1.
  { unfold w1. case_bool_decide; [done|by apply fifo_worker_step]. }
  destruct (exited w1); [done|].
  destruct (chans w1 !! q') as [c1|] eqn:Hq1; [|done].
  intros q. simpl. change (pending q (log ?ev ?w)) with (pending q w).
  rewrite (pending_set_buf q w1 q' c1) by done.
  rewrite sent_snoc, taken_snoc, app_nil_r. specialize (Hw1 q).
  destruct (decide (q' = q)) as [->|Hne].
  - unfold pending in Hw1. rewrite Hq1 in Hw1. by rewrite Hw1, app_assoc.
  - by rewrite app_nil_r.
Qed.

Lemma fifo_make_queue n f w : fifo w → fifo (make_queue n f w).2.
Proof.
  intros Hw q. unfold make_queue; simpl. rewrite (Hw q). f_equal.
  unfold pending; simpl.
  destruct (chans w !! q) as [c|] eqn:Hq.
  - by rewrite (lookup_app_l_Some _ _ _ _ Hq).
  - apply lookup_ge_None in Hq. rewrite lookup_app_r by done.
    by destruct (q - length (chans w))%nat as [|[|k]].
Qed.

Lemma fifo_abandon rest w : fifo w → fifo (abandon rest w).
Proof. apply fifo_same; [apply chans_abandon|apply trace_abandon]. Qed.

(** X7.  After any history that starts without channels: what [Publish]
    has sent on the channel of a handler is, in the same order, what the
    goroutine of the handler has taken from it so far, followed by what
    still waits in the channel.  No message is dropped, handled twice or
    overtaken by a later one. *)
Theorem async_handler_fifo ops e q :
  sent q (trace (run ops (e, world0)).2)
  = (taken q (trace (run ops (e, world0)).2)
     ++ pending q (run ops (e, world0)).2)%list.
Proof.
  revert q. change (fifo (run ops (e, world0)).2).
  apply preserved_run.
  - apply fifo_send.
  - apply fifo_call.
  - apply fifo_abandon.
  - intros f w. apply fifo_make_queue.
  - apply fifo_worker_step.
  - done.
Qed.

(** ** The queues are bounded *)

(** Every channel has the default capacity and holds no more than
    that. *)
Definition bounded (w : world) : Prop :=
  Forall (λ c, cap c = defaultAsyncHandlerQueueSize
               ∧ Z.of_nat (length (buf c)) ≤ cap c) (chans w).

Lemma bounded_set_buf w q c b :
  bounded w → chans w !! q = Some c → Z.of_nat (length b) ≤ cap c →
  bounded (set_buf q c b w).
Proof.
  intros Hw Hq Hb. unfold bounded in *. simpl. apply Forall_insert; [done|].
  simpl. split; [|done]. rewrite Forall_forall in Hw.
  apply (Hw c). by eapply list_elem_of_lookup_2.
Qed.

Lemma bounded_lookup w q c :
  bounded w → chans w !! q = Some c →
  cap c = defaultAsyncHandlerQueueSize ∧ Z.of_nat (length (buf c)) ≤ cap c.
Proof.
  intros Hw Hq. unfold bounded in Hw. rewrite Forall_forall in Hw.
  apply Hw. by eapply list_elem_of_lookup_2.
Qed.

Lemma bounded_worker_step q w : bounded w → bounded (worker_step q w).
Proof.
  intros Hw. unfold worker_step. destruct (exited w); [done|].
  destruct (chans w !! q) as [c|] eqn:Hq; [|done].
  destruct (buf c) as [|p rest] eqn:Hbuf; [done|].
  assert (bounded (set_buf q c rest w)) as Hb.
  { apply bounded_set_buf; [done..|].
    destruct (bounded_lookup w q c Hw Hq) as [_ Hlen].
    rewrite Hbuf in Hlen. simpl in Hlen. lia. }
  by destruct (Call (receiver c) p).
Qed.

Lemma bounded_send queue p w : bounded w → bounded (send queue p w).1.
Proof.
  intros Hw. unfold send. destruct queue as [q|]; [|done].
  destruct (chans w !! q) as [c|] eqn:Hq; [|done].
  destruct (bounded_lookup w q c Hw Hq) as [Hcap Hlen].
  case_bool_decide as Hroom.
  - destruct (exited w); [done|]. rewrite Hq. simpl.
    change (bounded (log ?ev ?w)) with (bounded w).
    apply bounded_set_buf; [done..|]. rewrite length_app. simpl. lia.
  - pose proof (bounded_worker_step q w Hw) as Hw1.
    destruct (exited (worker_step q w)) eqn:He1; [done|].
    destruct (chans (worker_step q w) !! q) as [c1|] eqn:Hq1; [|done].
    simpl. change (bounded (log ?ev ?w)) with (bounded w).
    apply bounded_set_buf; [done..|]. rewrite length_app. simpl.
    assert (exited w = false) as He.
    { destruct (exited w) eqn:Hw0; [|done].
      by rewrite worker_step_exited, Hw0 in He1. }
    pose proof (length_pending_worker_step q w He) as Hlen1.
    unfold pending in Hlen1. rewrite Hq, Hq1 in Hlen1.
    destruct (bounded_lookup _ q c1 Hw1 Hq1) as [Hcap1 _].
    destruct (buf c) as [|p0 rest].
    { simpl in Hroom. rewrite Hcap in Hroom.
      unfold defaultAsyncHandlerQueueSize in Hroom. lia. }
    simpl in *. rewrite Hcap1, <- Hcap. lia.
Qed.

Lemma bounded_make_queue f w :
  bounded w → bounded (make_queue defaultAsyncHandlerQueueSize f w).2.
Proof.
  intros Hw. unfold bounded, make_queue; simpl. apply Forall_app. split; [done|].
  apply Forall_singleton. simpl. unfold defaultAsyncHandlerQueueSize. lia.
Qed.

(** X8.  After any history that starts without channels, no channel of
    a handler holds more than 1000 waiting messages: a [Publish] that
    finds the channel full waits until the goroutine has taken one. *)
Theorem async_queue_bounded ops e q :
  (length (pending q (run ops (e, world0)).2) ≤ 1000)%nat.
Proof.
  assert (bounded (run ops (e, world0)).2) as Hb.
  { apply preserved_run.
    - apply bounded_send.
    - done.
    - intros rest w. by destruct rest.
    - apply bounded_make_queue.
    - apply bounded_worker_step.
    - constructor. }
  unfold pending. destruct (chans _ !! q) as [c|] eqn:Hq; [|simpl; lia].
  destruct (bounded_lookup _ q c Hb Hq) as [Hcap Hlen].
  rewrite Hcap in Hlen. unfold defaultAsyncHandlerQueueSize in Hlen. lia.
Qed.

(** ** Every asynchronous handler has a channel of its own *)

(** No two handlers of the registry, under the same key or under
    different keys, have the same channel. *)
Definition queues_private (e : eventBus) : Prop :=
  ∀ k1 hs1 i1 h1 k2 hs2 i2 h2 q,
    items (bus_handlers e) !! k1 = Some hs1 → hs1 !! i1 = Some h1 →
    queue h1 = Some q →
    items (bus_handlers e) !! k2 = Some hs2 → hs2 !! i2 = Some h2 →
    queue h2 = Some q →
    k1 = k2 ∧ i1 = i2.

(** Every asynchronous handler of the registry has a channel, which is
    a channel of the world, made with the default capacity and served by
    the goroutine that calls the function of this handler; a
    synchronous handler has the nil channel. *)
Definition queues_served (e : eventBus) (w : world) : Prop :=
  ∀ key hs h, items (bus_handlers e) !! key = Some hs → h ∈ hs →
    if isAsync h
    then ∃ q c, queue h = Some q ∧ chans w !! q = Some c
                ∧ cap c = defaultAsyncHandlerQueueSize ∧ receiver c = Handler h
    else queue h = None.

(** A handler of the registry after [Add] was there before, at the same
    place, or is the one added, at the end of the slice of its key. *)
Lemma lookup_Add k hs i h key hnew cm :
  items (Add key hnew cm) !! k = Some hs → hs !! i = Some h →
  (∃ hs0, items cm !! k = Some hs0 ∧ hs0 !! i = Some h)
  ∨ (k = key ∧ i = length (default [] (items cm !! key)) ∧ h = hnew).
Proof.
  destruct (decide (key = k)) as [->|Hne].
  - rewrite items_Add_eq. intros [= <-] Hi.
    apply lookup_app_Some in Hi as [Hi|[Hlen Hi]].
    + left. destruct (items cm !! k) as [hs0|]; [eauto|done].
    + right. apply list_lookup_singleton_Some in Hi as [Hi <-].
      split_and!; [done|lia|done].
  - rewrite items_Add_ne by done. eauto.
Qed.

Lemma queue_in_world e w k hs i h q :
  bus_ok e w → items (bus_handlers e) !! k = Some hs → hs !! i = Some h →
  queue h = Some q → (q < length (chans w))%nat.
Proof.
  intros Hok Hl Hi Hq. destruct (Hok k hs Hl) as [_ Hhs].
  rewrite Forall_forall in Hhs.
  destruct (Hhs h) as (_ & _ & Hqueue); [by eapply list_elem_of_lookup_2|].
  rewrite Hq in Hqueue. destruct Hqueue as [_ Hw].
  apply lookup_lt_Some in Hw. by rewrite length_wiring in Hw.
Qed.

Lemma bus_ok_served e w : bus_ok e w → queues_served e w.
Proof.
  intros Hok key hs h Hl Hin. destruct (isAsync h) eqn:Ha.
  - destruct (async_queue_capacity e w key hs h Hok Hl Hin Ha)
      as (q & c & ? & ? & ? & ?). by exists q, c.
  - destruct (Hok key hs Hl) as [_ Hhs]. rewrite Forall_forall in Hhs.
    destruct (Hhs h Hin) as (_ & _ & Hq).
    destruct (queue h); [destruct Hq; congruence|done].
Qed.

Lemma subscribe_private e fn async w :
  bus_ok e w → queues_private e → queues_private (subscribe e fn async w).1.1.
Proof.
  intros Hok Hpriv.
  destruct (decide (validateHandler fn = Returns None)) as [Hv|Hv];
    [|by rewrite subscribe_rejected].
  destruct fn as [f|]; [|done].
  destruct (accepted_has_key f Hv) as [key Hk].
  rewrite (subscribe_accepted _ _ _ _ key) by done.
  destruct (locked w); cbn [fst bus_handlers]; [done|].
  intros k1 hs1 i1 h1 k2 hs2 i2 h2 q Hl1 Hi1 Hq1 Hl2 Hi2 Hq2.
  cbn [bus_handlers] in Hl1, Hl2.
  destruct (lookup_Add _ _ _ _ _ _ _ Hl1 Hi1) as [(hs1' & Hl1' & Hi1')|(-> & -> & ->)];
    destruct (lookup_Add _ _ _ _ _ _ _ Hl2 Hi2) as [(hs2' & Hl2' & Hi2')|(-> & -> & ->)].
  - by eapply Hpriv.
  - pose proof (queue_in_world e w _ _ _ _ _ Hok Hl1' Hi1' Hq1) as Hlt.
    unfold new_handler in Hq2. destruct async; simpl in Hq2; [|done].
    injection Hq2 as <-. lia.
  - pose proof (queue_in_world e w _ _ _ _ _ Hok Hl2' Hi2' Hq2) as Hlt.
    unfold new_handler in Hq1. destruct async; simpl in Hq1; [|done].
    injection Hq1 as <-. lia.
  - done.
Qed.

Lemma run_private ops e w :
  bus_ok e w → queues_private e → queues_private (run ops (e, w)).1.
Proof.
  revert e w. induction ops as [|o ops IH]; intros e w Hok Hpriv; [done|].
  simpl. pose proof (step_ok e w o Hok) as Hok'.
  assert (queues_private (step (e, w) o).1) as Hpriv'.
  { unfold step. simpl. destruct (exited w); [done|].
    destruct o as [fn async|ctx msg o1 o2|q]; simpl; [|done..].
    by apply subscribe_private. }
  destruct (step (e, w) o) as [e1 w1]. by apply IH.
Qed.

(** X9.  On every bus, after any history, each asynchronous handler has
    a channel of its own: it has a channel, which is a channel of the
    world, made with capacity 1000 and served by the goroutine that
    calls the function of this very handler, and two handlers with the
    same channel are one and the same entry of the registry.  What is
    sent to one handler never reaches the goroutine of another.  A
    synchronous handler has no channel. *)
Theorem async_queues_are_private queueSize ops e w :
  run ops (New queueSize, world0) = (e, w) →
  queues_served e w ∧ queues_private e.
Proof.
  intros Hrun. split.
  - apply bus_ok_served, reachable_ok. by exists queueSize, ops.
  - pose proof (run_private ops (New queueSize) world0 (bus_ok_New _ _)) as Hpriv.
    rewrite Hrun in Hpriv. apply Hpriv.
    intros k1 hs1 i1 h1 k2 hs2 i2 h2 q Hl1. simpl in Hl1.
    by rewrite lookup_empty in Hl1.
Qed.

Lemma async_queues_are_private_witness :
  queues_served (run ops_async (New [], world0)).1 (run ops_async (New [], world0)).2
  ∧ queues_private (run ops_async (New [], world0)).1.
Proof.
  apply (async_queues_are_private [] ops_async _ (run ops_async (New [], world0)).2).
  reflexivity.
Defined.

(** ** When [Publish] panics *)

Lemma sync_outcome_panics fs p :
  (∃ pn, sync_outcome fs p = Panics pn)
  ↔ ∃ pre f post, fs = (pre ++ f :: post)%list
                  ∧ (∀ g, g ∈ pre → reply g p = Some None)
                  ∧ reply f p = None.
Proof.
  induction fs as [|f fs IH].
  - split; [by intros [pn ?]|]. intros (pre & g & post & Heq & _). by destruct pre.
  - assert (reply f p = None → ∃ pn, sync_outcome (f :: fs) p = Panics pn) as Hnone.
    { unfold reply. simpl. destruct (Call f p) as [[|[| |] rest]|pn]; try done;
        intros _; by eexists. }
    assert ((∃ r, reply f p = Some (Some r)) →
            ¬ ∃ pn, sync_outcome (f :: fs) p = Panics pn) as Herr.
    { unfold reply. simpl. destruct (Call f p) as [[|[| |] rest]|pn];
        intros [r Hr]; try done. by intros [pn ?]. }
    assert (reply f p = Some None → sync_outcome (f :: fs) p = sync_outcome fs p)
      as Hnil.
    { unfold reply. simpl. by destruct (Call f p) as [[|[| |] rest]|pn]. }
    destruct (reply f p) as [[r|]|] eqn:Hr.
    + split; [intros Hp; destruct Herr; eauto|].
      intros (pre & g & post & Heq & Hpre & Hg).
      destruct pre as [|g' pre]; simpl in Heq; injection Heq as -> Heq;
        [congruence|].
      specialize (Hpre g' ltac:(left)). congruence.
    + rewrite Hnil by done. rewrite IH. split.
      * intros (pre & g & post & -> & Hpre & Hg). exists (f :: pre), g, post.
        split_and!; [done| |done].
        intros g' [->|Hin]%elem_of_cons; [done|by apply Hpre].
      * intros (pre & g & post & Heq & Hpre & Hg).
        destruct pre as [|g' pre]; simpl in Heq; injection Heq as -> Heq;
          [congruence|].
        exists pre, g, post. split_and!; [done| |done].
        intros g'' Hin. apply Hpre. by right.
    + split; [|by intros _; apply Hnone].
      intros _. exists [], f, fs. split_and!; [done| |done].
      by intros g ?%elem_of_nil.
Qed.

(** X10.  On every bus, after any history that leaves the lock of the
    registry free, a [Publish] for a type with handlers that the process
    survives panics exactly when, going through the synchronous handlers
    of the type in registration order, it comes to one that it cannot
    call with the context and the message, or whose first result is
    missing or is neither nil nor an error, before any handler has
    answered an error.  Handlers registered after a failing one can do
    no harm, and nothing else makes [Publish] panic. *)
Theorem Publish_panics_iff queueSize ops e w ctx m o1 o2 :
  run ops (New queueSize, world0) = (e, w) →
  locked w = false →
  exited (Publish e ctx (Some m) o1 o2 w).1 = false →
  registrations (type_String (v_type m)) ops ≠ [] →
  let p := {| p_ctx := ctx; p_msg := ValueOf m |} in
  (∃ pn, (Publish e ctx (Some m) o1 o2 w).2 = Panics pn)
  ↔ ∃ pre f post,
      registered false (type_String (v_type m)) ops = (pre ++ f :: post)%list
      ∧ (∀ g, g ∈ pre → reply g p = Some None)
      ∧ reply f p = None.
Proof.
  intros Hrun Hfree Halive Hreg p.
  assert (bus_ok e w) as Hok by (apply reachable_ok; by exists queueSize, ops).
  assert (live w) as Hlive.
  { split; [|done]. destruct (exited w) eqn:He; [|done].
    by rewrite exited_Publish_mono in Halive. }
  rewrite <- (entries_reachable _ queueSize ops e w Hrun Hlive) in Hreg.
  destruct (entries_not_nil _ _ Hreg) as (hs & Hl & _).
  rewrite (Publish_outcome e w ctx m o1 o2 hs Hok Hfree Hl Halive).
  rewrite (fns_registered false _ queueSize ops e w hs Hrun Hlive Hl).
  apply sync_outcome_panics.
Qed.

(** A handler that answers an error, then a handler of three
    parameters, which [Publish] could not call: it is never reached. *)
Definition handler_three (id : nat) : value :=
  {| v_type := TFunc [contextT; TPtr GetUserQuery; TNamed Int "int"] [errorT];
     v_ptr := id; v_code := Some (λ _ _ _, RNil) |}.

Definition ops_three : list op :=
  [Sub (Some (handler_failing 1 "some error")) false;
   Sub (Some (handler_three 2)) false].

Lemma Publish_panics_iff_witness :
  ¬ ∃ pn, (Publish (run ops_three (New [], world0)).1 (Some background) (Some query)
             in_order in_order (run ops_three (New [], world0)).2).2 = Panics pn.
Proof.
  intros Hpanic.
  apply (Publish_panics_iff [] ops_three _ _ (Some background) query in_order in_order
           eq_refl)
    in Hpanic as (pre & f & post & Heq & Hpre & Hf).
  - destruct pre as [|g pre]; injection Heq as <- Heq; [done|].
    specialize (Hpre _ ltac:(left)). done.
  - reflexivity.
  - vm_compute. reflexivity.
  - vm_compute. discriminate.
Defined.

(** * The registry lock

    [handlers] embeds a [sync.RWMutex]; [Add], [Get] and the goroutine of
    [Iter] take it with [Lock] and release it with a deferred [Unlock].
    This module gives the interleaving semantics of the goroutines that
    run [subscribe] and [Publish] on one bus, one source statement per
    step, and follows who holds the lock.  The channels of the
    asynchronous handlers and their goroutines never touch the lock and
    are left out: a send on such a channel is a step that may take any
    time. *)
Module Locking.

(** The two loops of [Publish]. *)
Inductive phase := Async | Sync.

(** Where a goroutine stands.  [c] names the channel [Iter] returned,
    which is also the number of the goroutine [Iter] started. *)
Inductive pc :=
  (** [handlers.Add], called by [subscribe] *)
  | AddLock (key : string) (h : handler)       (* before [cm.Lock()] *)
  | AddWrite (key : string) (h : handler)      (* before the map update *)
  | AddUnlock                                  (* before the deferred [cm.Unlock()] *)
  (** [handlers.Get], called by [Publish] *)
  | GetLock (key : string) (p : params)
  | GetRead (key : string) (p : params)
  | GetUnlock (key : string) (p : params) (ok : bool)
  (** the loops of [Publish] *)
  | CallIter (ph : phase) (key : string) (p : params)   (* before [e.handlers.Iter()] *)
  | Range (ph : phase) (c : nat) (key : string) (p : params)  (* receiving from [c] *)
  | Body (ph : phase) (c : nat) (key : string) (p : params) (hs : list handler)
  | InSend (c : nat) (key : string) (p : params) (h : handler) (rest : list handler)
                                               (* in [handler.queue <- params] *)
  | InCall (c : nat) (key : string) (p : params) (h : handler) (rest : list handler)
                                               (* in [handler.Handler.Call(params)] *)
  | Done (o : outcome)
  (** the goroutine [f] of [Iter] *)
  | IterLock                                   (* before [cm.Lock()] *)
  | IterSend (its : list handlerItem)          (* before [c <- item], or [close(c)] *)
  | IterUnlock                                 (* [c] closed, before [cm.Unlock()] *)
  | IterDone.

(** The goroutine is between its [Lock] and its [Unlock]. *)
Definition holds (l : pc) : bool :=
  match l with
  | AddWrite _ _ | AddUnlock | GetRead _ _ | GetUnlock _ _ _
  | IterSend _ | IterUnlock => true
  | _ => false
  end.

(** The goroutine runs user code or waits on the channel of an
    asynchronous handler. *)
Definition in_user_code (l : pc) : bool :=
  match l with
  | InSend _ _ _ _ _ | InCall _ _ _ _ _ => true
  | _ => false
  end.

(** The channel of an [Iter] goroutine is closed. *)
Definition closed (l : pc) : bool :=
  match l with
  | IterUnlock | IterDone => true
  | _ => false
  end.

Record state := { registry : handlers; lock : option nat; threads : list pc }.

(** What a step does to the lock. *)
Inductive effect := Keep | Acquire | Release.

(** What [Publish] does with the results of a call. *)
Definition after_call (c : nat) (key : string) (p : params)
    (rest : list handler) (result : list retval) : pc :=
  match result !! 0%nat with
  | None => Done (Panics (IndexOutOfRange 0 (length result)))
  | Some RNil => Body Sync c key p rest
  | Some (RError err) => Done (Returns (Some err))
  | Some (ROther _) => Done (Panics TypeAssertionFailed)
  end.

(** The steps of one goroutine on its own: from [l] to [l'], with the
    effect on the lock, the registry after the step and the goroutine it
    starts, if any.  [n] is the number the next goroutine gets. *)
Inductive lstep (reg : handlers) (n : nat)
  : pc → effect → pc → handlers → option pc → Prop :=
  | add_lock key h :
      lstep reg n (AddLock key h) Acquire (AddWrite key h) reg None
  | add_write key h :
      lstep reg n (AddWrite key h) Keep AddUnlock (Add key h reg) None
  | add_unlock :
      lstep reg n AddUnlock Release (Done (Returns None)) reg None
  | get_lock key p :
      lstep reg n (GetLock key p) Acquire (GetRead key p) reg None
  | get_read key p :
      lstep reg n (GetRead key p) Keep (GetUnlock key p (Get key reg).2) reg None
  | get_unlock key p ok :
      lstep reg n (GetUnlock key p ok) Release
        (if ok then CallIter Async key p else Done (Returns (Some ErrHandlerNotFound)))
        reg None
  | call_iter ph key p :
      lstep reg n (CallIter ph key p) Keep (Range ph n key p) reg (Some IterLock)
  | iter_lock its :
      its ≡ₚ Iter reg →
      lstep reg n IterLock Acquire (IterSend its) reg None
  | iter_close :
      lstep reg n (IterSend []) Keep IterUnlock reg None
  | iter_unlock :
      lstep reg n IterUnlock Release IterDone reg None
  | body_end ph c key p :
      lstep reg n (Body ph c key p []) Keep (Range ph c key p) reg None
  | body_skip_sync c key p h rest :
      isAsync h = false →
      lstep reg n (Body Async c key p (h :: rest)) Keep (Body Async c key p rest) reg None
  | body_skip_async c key p h rest :
      isAsync h = true →
      lstep reg n (Body Sync c key p (h :: rest)) Keep (Body Sync c key p rest) reg None
  | body_send c key p h rest :
      isAsync h = true →
      lstep reg n (Body Async c key p (h :: rest)) Keep (InSend c key p h rest) reg None
  | send_done c key p h rest :
      lstep reg n (InSend c key p h rest) Keep (Body Async c key p rest) reg None
  | body_call c key p h rest result :
      isAsync h = false → Call (Handler h) p = inl result →
      lstep reg n (Body Sync c key p (h :: rest)) Keep (InCall c key p h rest) reg None
  | body_call_panic c key p h rest pn :
      isAsync h = false → Call (Handler h) p = inr pn →
      lstep reg n (Body Sync c key p (h :: rest)) Keep (Done (Panics pn)) reg None
  | call_return c key p h rest result :
      Call (Handler h) p = inl result →
      lstep reg n (InCall c key p h rest) Keep (after_call c key p rest result) reg None.

Definition lock_after (t : nat) (a : effect) (lk : option nat) : option nat :=
  match a with
  | Keep => lk
  | Acquire => Some t
  | Release => None
  end.

(** The steps of the program: a goroutine steps on its own ([Lock] only
    when the lock is free); the goroutine of [Iter] hands the next entry
    to the [Publish] that ranges over its channel; a [Publish] finds the
    channel closed and leaves the loop. *)
Inductive step : state → state → Prop :=
  | step_local s t l a l' reg' spawn :
      threads s !! t = Some l →
      lstep (registry s) (length (threads s)) l a l' reg' spawn →
      (a = Acquire → lock s = None) →
      step s {| registry := reg'; lock := lock_after t a (lock s);
                threads := (<[t := l']> (threads s) ++ option_list spawn)%list |}
  | step_receive s t c ph key p it rest :
      threads s !! t = Some (Range ph c key p) →
      threads s !! c = Some (IterSend (it :: rest)) →
      step s {| registry := registry s; lock := lock s;
                threads := <[c := IterSend rest]>
                             (<[t := if bool_decide (Key it = key)
                                     then Body ph c key p (Value it)
                                     else Range ph c key p]> (threads s)) |}
  | step_range_end s t c ph key p l :
      threads s !! t = Some (Range ph c key p) →
      threads s !! c = Some l → closed l = true →
      step s {| registry := registry s; lock := lock s;
                threads := <[t := match ph with
                                  | Async => CallIter Sync key p
                                  | Sync => Done (Returns None)
                                  end]> (threads s) |}.

(** A call of [Publish] or of [handlers.Add] that has not begun. *)
Definition starting (l : pc) : bool :=
  match l with
  | GetLock _ _ | AddLock _ _ => true
  | _ => false
  end.

(** The program starts with the lock free and any number of goroutines
    about to publish or to register. *)
Definition initial (s : state) : Prop :=
  lock s = None ∧ Forall (λ l, starting l = true) (threads s).

Definition reachable_from (s0 s : state) : Prop := rtc step s0 s.

(** ** Who holds the lock *)

(** The lock is held by goroutine [t] exactly when [t] stands between a
    [Lock] and its [Unlock]. *)
Definition lock_inv (s : state) : Prop :=
  ∀ t, lock s = Some t ↔ (holds <$> threads s) !! t = Some true.

Lemma lstep_effect reg n l a l' reg' spawn :
  lstep reg n l a l' reg' spawn →
  match a with
  | Keep => holds l' = holds l
  | Acquire => holds l = false ∧ holds l' = true
  | Release => holds l = true ∧ holds l' = false
  end
  ∧ holds <$> option_list spawn = replicate (length (option_list spawn)) false.
Proof.
  destruct 1; simpl; try done.
  - by destruct ok.
  - unfold after_call. by destruct (result !! 0%nat) as [[| |]|].
Qed.

Lemma lookup_app_replicate_false (bs : list bool) k t :
  (bs ++ replicate k false)%list !! t = Some true ↔ bs !! t = Some true.
Proof.
  split.
  - intros Hl. apply lookup_app_Some in Hl as [Hl|[_ Hl]]; [done|].
    apply lookup_replicate in Hl as [? _]. done.
  - apply lookup_app_l_Some.
Qed.

Lemma starting_not_holds l : starting l = true → holds l = false.
Proof. by destruct l. Qed.

Lemma in_user_code_not_holds l : in_user_code l = true → holds l = false.
Proof. by destruct l. Qed.

Lemma initial_lock_inv s : initial s → lock_inv s.
Proof.
  intros [Hlock Hall] t. rewrite Hlock. split; [done|].
  rewrite list_lookup_fmap. destruct (threads s !! t) as [l|] eqn:Hl; [|done].
  rewrite Forall_forall in Hall. simpl.
  rewrite (starting_not_holds l); [done|]. apply Hall. by eapply list_elem_of_lookup_2.
Qed.

Lemma step_lock_inv s s' : lock_inv s → step s s' → lock_inv s'.
Proof.
  intros Hinv Hstep. destruct Hstep as
    [s t l a l' reg' spawn Hl Hls Hfree
    |s t c ph key p it rest Ht Hc
    |s t c ph key p l Ht Hc Hclosed]; intros t0; simpl.
  - apply lstep_effect in Hls as [Heff Hspawn].
    assert ((holds <$> threads s) !! t = Some (holds l)) as Hpl.
    { by rewrite list_lookup_fmap, Hl. }
    rewrite fmap_app, list_fmap_insert, Hspawn, lookup_app_replicate_false.
    destruct a; simpl.
    + rewrite Heff, list_insert_id by done. apply Hinv.
    + destruct Heff as [Hno Hyes]. rewrite Hyes.
      destruct (decide (t0 = t)) as [->|Hne].
      * rewrite list_lookup_insert_eq; [done|].
        rewrite length_fmap. by eapply lookup_lt_Some.
      * rewrite list_lookup_insert_ne by done. split; [by intros [= ?]|].
        intros Ht0. apply Hinv in Ht0. by rewrite Hfree in Ht0.
    + destruct Heff as [Hyes Hno]. rewrite Hno. split; [done|].
      destruct (decide (t0 = t)) as [->|Hne].
      * rewrite list_lookup_insert_eq; [done|].
        rewrite length_fmap. by eapply lookup_lt_Some.
      * rewrite list_lookup_insert_ne by done. intros Ht0.
        apply Hinv in Ht0. rewrite Hyes in Hpl. apply Hinv in Hpl. congruence.
  - rewrite !list_fmap_insert.
    replace (holds (if bool_decide (Key it = key)
                    then Body ph c key p (Value it) else Range ph c key p))
      with false by (by case_bool_decide).
    change (holds (IterSend rest)) with true.
    destruct (decide (c = t)) as [->|Hne]; [congruence|].
    rewrite (list_insert_id _ c true).
    + rewrite (list_insert_id _ t false); [apply Hinv|].
      by rewrite list_lookup_fmap, Ht.
    + rewrite list_lookup_insert_ne by done. by rewrite list_lookup_fmap, Hc.
  - rewrite list_fmap_insert.
    replace (holds match ph with
                   | Async => CallIter Sync key p
                   | Sync => Done (Returns None)
                   end) with false by (by destruct ph).
    rewrite (list_insert_id _ t false); [apply Hinv|].
    by rewrite list_lookup_fmap, Ht.
Qed.

Lemma reachable_lock_inv s0 s : initial s0 → reachable_from s0 s → lock_inv s.
Proof.
  intros Hinit. unfold reachable_from. revert s. apply rtc_ind_r.
  - by apply initial_lock_inv.
  - intros s1 s2 _ Hstep IH. by eapply step_lock_inv.
Qed.

(** ** One [Publish] on a bus with one synchronous handler *)

(** The registry after [Subscribe] of a handler for [*GetUserQuery]. *)
Definition registry1 : handlers :=
  bus_handlers (Subscribe (New []) (Some (handler_nil 1)) world0).1.1.

Definition handler1 : handler := new_handler (handler_nil 1) false world0.

Definition params1 : params :=
  {| p_ctx := Some background; p_msg := ValueOf query |}.

(** A goroutine is about to call [Publish(ctx, &query)]. *)
Definition race_start : state :=
  {| registry := registry1; lock := None;
     threads := [GetLock "*bus_test.GetUserQuery" params1] |}.

(** [Publish] (goroutine 0) is inside the call of the handler, in its
    second loop; the goroutine of the second [Iter] (goroutine 2) has
    handed over the only entry and has not yet closed the channel and
    released the lock. *)
Definition race_state : state :=
  {| registry := registry1; lock := Some 2%nat;
     threads := [InCall 2 "*bus_test.GetUserQuery" params1 handler1 [];
                 IterDone; IterSend []] |}.

Ltac local_step t :=
  eapply rtc_l;
  [ eapply (step_local _ t);
    [ reflexivity | econstructor; reflexivity | done ]
  | vm_compute ].

Ltac receive_step t c :=
  eapply rtc_l; [ eapply (step_receive _ t c); reflexivity | vm_compute ].

Ltac range_end_step t c :=
  eapply rtc_l; [ eapply (step_range_end _ t c); reflexivity | vm_compute ].

Lemma race_reachable : reachable_from race_start race_state.
Proof.
  unfold reachable_from. vm_compute.
  local_step 0%nat.            (* Get: cm.Lock() *)
  local_step 0%nat.            (* Get: value, ok := cm.items[key] *)
  local_step 0%nat.            (* Get: cm.Unlock() *)
  local_step 0%nat.            (* e.handlers.Iter(), goroutine 1 starts *)
  local_step 1%nat.            (* Iter: cm.Lock() *)
  receive_step 0%nat 1%nat.    (* c <- handlerItem{k, v} *)
  local_step 0%nat.            (* the handler is not async *)
  local_step 0%nat.            (* end of the inner loop *)
  local_step 1%nat.            (* Iter: close(c) *)
  local_step 1%nat.            (* Iter: cm.Unlock() *)
  range_end_step 0%nat 1%nat.  (* end of the first loop *)
  local_step 0%nat.            (* e.handlers.Iter(), goroutine 2 starts *)
  local_step 2%nat.            (* Iter: cm.Lock() *)
  receive_step 0%nat 2%nat.    (* c <- handlerItem{k, v} *)
  local_step 0%nat.            (* handler.Handler.Call(params) begins *)
  apply rtc_refl.
Qed.

Lemma race_start_initial : initial race_start.
Proof. split; [done|]. by repeat constructor. Qed.

(** The claim as the specification has it: whenever a goroutine runs a
    handler or waits on the channel of an asynchronous handler, nobody
    holds the lock. *)
Definition lock_free_in_user_code (s0 : state) : Prop :=
  ∀ s, reachable_from s0 s →
    ∀ t l, threads s !! t = Some l → in_user_code l = true → lock s = None.

(** C10, as stated, fails: with one handler registered and one [Publish]
    there is an interleaving in which the handler runs while the
    goroutine of [Iter] holds the lock. *)
Lemma lock_held_while_handler_runs :
  initial race_start ∧ ¬ lock_free_in_user_code race_start.
Proof.
  split; [apply race_start_initial|]. intros Hfree.
  specialize (Hfree race_state race_reachable 0%nat _ eq_refl eq_refl). done.
Qed.

(** C10, as the code has it.  In every interleaving of calls of
    [subscribe] and [Publish]: whoever holds the lock stands between the
    [Lock] and the [Unlock] of [Add], of [Get] or of the goroutine of
    [Iter]; and a goroutine that runs a handler or waits on the channel
    of an asynchronous handler does not hold the lock itself. *)
Theorem lock_not_held_by_caller_of_handler s0 s :
  initial s0 → reachable_from s0 s →
  (∀ t, lock s = Some t → ∃ l, threads s !! t = Some l ∧ holds l = true)
  ∧ (∀ t l, threads s !! t = Some l → in_user_code l = true → lock s ≠ Some t).
Proof.
  intros Hinit Hreach. pose proof (reachable_lock_inv s0 s Hinit Hreach) as Hinv.
  split.
  - intros t Ht. apply Hinv in Ht. rewrite list_lookup_fmap in Ht.
    destruct (threads s !! t) as [l|]; [|done]. injection Ht as Ht. eauto.
  - intros t l Hl Huser Ht. apply Hinv in Ht.
    rewrite list_lookup_fmap, Hl in Ht. injection Ht as Ht.
    by rewrite (in_user_code_not_holds l) in Ht.
Qed.

Lemma lock_not_held_by_caller_of_handler_witness :
  lock race_state ≠ Some 0%nat
  ∧ ∃ l, threads race_state !! 2%nat = Some l ∧ holds l = true.
Proof.
  destruct (lock_not_held_by_caller_of_handler race_start race_state
              race_start_initial race_reachable) as [Hholder Hcaller].
  split.
  - apply (Hcaller 0%nat (InCall 2 "*bus_test.GetUserQuery" params1 handler1 []));
      reflexivity.
  - apply Hholder. reflexivity.
Defined.

(** ** Further properties of the lock *)

(** X11.  The lock excludes: in every interleaving, when a goroutine
    stands between a [Lock] and its [Unlock], no other goroutine does,
    so the map update of [Add], the lookup of [Get] and the enumeration
    of [Iter] never overlap. *)
Theorem lock_excludes s0 s t1 t2 l1 l2 :
  initial s0 → reachable_from s0 s →
  threads s !! t1 = Some l1 → threads s !! t2 = Some l2 → t1 ≠ t2 →
  holds l1 = true → holds l2 = false.
Proof.
  intros Hinit Hreach Ht1 Ht2 Hne Hh1.
  pose proof (reachable_lock_inv s0 s Hinit Hreach) as Hinv.
  destruct (holds l2) eqn:Hh2; [|done]. destruct Hne.
  assert (lock s = Some t1) as Hl1.
  { apply Hinv. by rewrite list_lookup_fmap, Ht1, <- Hh1. }
  assert (lock s = Some t2) as Hl2.
  { apply Hinv. by rewrite list_lookup_fmap, Ht2, <- Hh2. }
  congruence.
Qed.

Lemma lock_excludes_witness :
  holds (InCall 2 "*bus_test.GetUserQuery" params1 handler1 []) = false.
Proof.
  apply (lock_excludes race_start race_state 2%nat 0%nat (IterSend []) _
           race_start_initial race_reachable); [reflexivity|reflexivity|lia|reflexivity].
Defined.

(** *** What a goroutine has read from the map *)

(** The handlers a [Publish] has still to go through in the entry it
    received, with the key of its message. *)
Definition remaining (l : pc) : option (string * list handler) :=
  match l with
  | Body _ _ key _ hs => Some (key, hs)
  | InSend _ key _ h rest | InCall _ key _ h rest => Some (key, h :: rest)
  | _ => None
  end.

(** [hs] is a run of consecutive handlers of the entry of [key]. *)
Definition segment (reg : handlers) (key : string) (hs : list handler) : Prop :=
  ∃ pre post, items reg !! key = Some (pre ++ hs ++ post)%list.

(** What the goroutine of [Iter] has still to send is what the map
    holds; what a [Publish] has still to go through is a segment of the
    entry of its key. *)
Definition up_to_date (reg : handlers) (l : pc) : Prop :=
  match l with
  | IterSend its => ∀ it, it ∈ its → items reg !! Key it = Some (Value it)
  | _ => ∀ key hs, remaining l = Some (key, hs) → segment reg key hs
  end.

Definition snapshot_inv (s : state) : Prop :=
  Forall (up_to_date (registry s)) (threads s).

Lemma segment_Add reg key hs k h :
  segment reg key hs → segment (Add k h reg) key hs.
Proof.
  intros (pre & post & Hl). destruct (decide (k = key)) as [->|Hne].
  - exists pre, (post ++ [h])%list. rewrite items_Add_eq, Hl. simpl.
    by rewrite <- !app_assoc.
  - exists pre, post. by rewrite items_Add_ne.
Qed.

Lemma segment_tail reg key h rest :
  segment reg key (h :: rest) → segment reg key rest.
Proof.
  intros (pre & post & Hl). exists (pre ++ [h])%list, post.
  by rewrite <- app_assoc.
Qed.

Lemma up_to_date_Add reg l k h :
  holds l = false → up_to_date reg l → up_to_date (Add k h reg) l.
Proof.
  destruct l; simpl; try done; intros _ Hl key' hs' Heq;
    apply segment_Add; by apply Hl.
Qed.

Lemma lstep_registry reg n l a l' reg' spawn :
  lstep reg n l a l' reg' spawn →
  reg' = reg ∨ (holds l = true ∧ ∃ key h, reg' = Add key h reg).
Proof. destruct 1; simpl; eauto. Qed.

Lemma lstep_up_to_date reg n l a l' reg' spawn :
  lstep reg n l a l' reg' spawn → up_to_date reg l →
  up_to_date reg' l' ∧ Forall (up_to_date reg') (option_list spawn).
Proof.
  destruct 1; simpl; intros Hl; (split; [|by repeat constructor]);
    try done.
  - by destruct ok.
  - intros it Hin. rewrite H in Hin. destruct it as [k v].
    by apply elem_of_Iter in Hin.
  - intros k hs [= <- <-]. eapply segment_tail. by apply Hl.
  - intros k hs [= <- <-]. eapply segment_tail. by apply Hl.
  - intros k hs [= <- <-]. eapply segment_tail. by apply Hl.
  - unfold after_call. destruct (result !! 0%nat) as [[| |]|]; try done.
    intros k hs [= <- <-]. eapply segment_tail. by apply Hl.
Qed.

Lemma initial_snapshot_inv s : initial s → snapshot_inv s.
Proof.
  intros [_ Hall]. unfold snapshot_inv. eapply Forall_impl; [exact Hall|].
  by intros [].
Qed.

Lemma step_snapshot_inv s s' :
  lock_inv s → snapshot_inv s → step s s' → snapshot_inv s'.
Proof.
  intros Hlock Hsnap Hstep. unfold snapshot_inv in *.
  destruct Hstep as
    [s t l a l' reg' spawn Hl Hls Hfree
    |s t c ph key p it rest Ht Hc
    |s t c ph key p l Ht Hc Hclosed]; simpl.
  - assert (up_to_date (registry s) l) as Hup.
    { rewrite Forall_forall in Hsnap. apply Hsnap. by eapply list_elem_of_lookup_2. }
    destruct (lstep_up_to_date _ _ _ _ _ _ _ Hls Hup) as [Hl' Hsp].
    apply Forall_app. split; [|done].
    apply Forall_lookup. intros t0 l0 Hl0.
    apply list_lookup_insert_Some in Hl0 as [(-> & <- & _)|(Hne & Hl0)]; [done|].
    assert (up_to_date (registry s) l0) as Hup0.
    { rewrite Forall_forall in Hsnap. apply Hsnap. by eapply list_elem_of_lookup_2. }
    destruct (lstep_registry _ _ _ _ _ _ _ Hls) as [->|(Hholds & k & h & ->)]; [done|].
    (* the map changes: the goroutine that steps holds the lock, so no
       other goroutine is between a [Lock] and an [Unlock] *)
    apply up_to_date_Add; [|done].
    destruct (holds l0) eqn:Hh0; [|done]. destruct Hne.
    assert (lock s = Some t0) as Hlk0.
    { apply Hlock. by rewrite list_lookup_fmap, Hl0, <- Hh0. }
    assert (lock s = Some t) as Hlk.
    { apply Hlock. by rewrite list_lookup_fmap, Hl, <- Hholds. }
    congruence.
  - assert (up_to_date (registry s) (IterSend (it :: rest))) as Hup.
    { rewrite Forall_forall in Hsnap. apply Hsnap. by eapply list_elem_of_lookup_2. }
    simpl in Hup.
    apply Forall_insert; [apply Forall_insert; [done|]|].
    + case_bool_decide as Hkey; [|done]. simpl. intros k hs [= <- <-].
      exists [], []. rewrite app_nil_r. simpl. rewrite <- Hkey.
      apply Hup. by left.
    + simpl. intros it' Hin. apply Hup. by right.
  - apply Forall_insert; [done|]. by destruct ph.
Qed.

Lemma reachable_snapshot_inv s0 s :
  initial s0 → reachable_from s0 s → lock_inv s ∧ snapshot_inv s.
Proof.
  intros Hinit. unfold reachable_from. revert s. apply rtc_ind_r.
  - split; [by apply initial_lock_inv|by apply initial_snapshot_inv].
  - intros s1 s2 _ Hstep [Hlock Hsnap]. split.
    + by eapply step_lock_inv.
    + by eapply step_snapshot_inv.
Qed.

(** *** Who receives from the channel of [Iter] *)

(** The channel a [Publish] ranges over. *)
Definition channel_of (l : pc) : option nat :=
  match l with
  | Range _ c _ _ | Body _ c _ _ _ | InSend c _ _ _ _ | InCall c _ _ _ _ => Some c
  | _ => None
  end.

(** The goroutine waits in [cm.Lock()]. *)
Definition at_Lock (l : pc) : bool :=
  match l with
  | AddLock _ _ | GetLock _ _ | IterLock => true
  | _ => false
  end.

(** The goroutine [c] of an [Iter] has an entry to send and no [Publish]
    ranges over its channel any more. *)
Definition abandoned (c : nat) (s : state) : Prop :=
  (∃ it rest, threads s !! c = Some (IterSend (it :: rest)))
  ∧ ∀ t l, threads s !! t = Some l → channel_of l ≠ Some c.

(** Every channel is the channel of a goroutine that exists, and one
    [Publish] at most ranges over it. *)
Definition owner_inv (cs : list (option nat)) : Prop :=
  ∀ t c, cs !! t = Some (Some c) →
    (c < length cs)%nat ∧ ∀ t', cs !! t' = Some (Some c) → t' = t.

Lemma lstep_channel_of reg n l a l' reg' spawn :
  lstep reg n l a l' reg' spawn →
  (channel_of l' = None ∨ channel_of l' = channel_of l
   ∨ channel_of l' = Some n ∧ spawn ≠ None)
  ∧ channel_of <$> option_list spawn = replicate (length (option_list spawn)) None.
Proof.
  destruct 1; simpl; (split; [|done]); auto.
  - destruct ok; auto.
  - unfold after_call. destruct (result !! 0%nat) as [[| |]|]; auto.
Qed.

Lemma owner_inv_step cs t x k :
  owner_inv cs → (t < length cs)%nat →
  (x = None ∨ cs !! t = Some x ∨ x = Some (length cs) ∧ (0 < k)%nat) →
  owner_inv (<[t := x]> cs ++ replicate k None).
Proof.
  intros Hinv Ht Hx.
  assert (∀ t0 c, (<[t := x]> cs ++ replicate k None)%list !! t0 = Some (Some c) →
            t0 = t ∧ x = Some c ∨ t0 ≠ t ∧ cs !! t0 = Some (Some c)) as Hcases.
  { intros t0 c Hl. apply lookup_app_Some in Hl as [Hl|[_ Hl]].
    - apply list_lookup_insert_Some in Hl as [(-> & <- & _)|(Hne & Hl)]; auto.
    - apply lookup_replicate in Hl as [? _]. done. }
  intros t0 c Hl. rewrite length_app, length_insert, length_replicate.
  apply Hcases in Hl as [[-> ->]|[Hne Hl]].
  - destruct Hx as [?|[Hx|[[= ->] Hk]]]; [done| |].
    + destruct (Hinv _ _ Hx) as [Hlt Huniq]. split; [lia|].
      intros t' Hl'. apply Hcases in Hl' as [[-> _]|[Hne' Hl']]; [done|].
      by apply Huniq.
    + split; [lia|].
      intros t' Hl'. apply Hcases in Hl' as [[-> _]|[Hne' Hl']]; [done|].
      apply Hinv in Hl' as [? _]. lia.
  - destruct (Hinv _ _ Hl) as [Hlt Huniq]. split; [lia|].
    intros t' Hl'. apply Hcases in Hl' as [[-> ->]|[Hne' Hl']]; [|by apply Huniq].
    destruct Hx as [?|[Hx|[[= ->] Hk]]]; [done| |lia].
    by apply Huniq.
Qed.

Lemma step_owner_inv s s' :
  owner_inv (channel_of <$> threads s) → step s s' →
  owner_inv (channel_of <$> threads s').
Proof.
  intros Hinv Hstep. destruct Hstep as
    [s t l a l' reg' spawn Hl Hls Hfree
    |s t c ph key p it rest Ht Hc
    |s t c ph key p l Ht Hc Hclosed]; simpl.
  - apply lstep_channel_of in Hls as [Hch Hspawn].
    rewrite fmap_app, list_fmap_insert, Hspawn.
    apply owner_inv_step; [done| |].
    + rewrite length_fmap. by eapply lookup_lt_Some.
    + rewrite list_lookup_fmap, Hl, length_fmap. simpl.
      destruct Hch as [->|[->|[-> Hsp]]]; auto.
      right; right. split; [done|]. destruct spawn; [simpl; lia|done].
  - rewrite !list_fmap_insert. change (channel_of (IterSend rest)) with (@None nat).
    assert (c ≠ t) as Hne by congruence.
    rewrite (list_insert_id _ c None).
    + rewrite (list_insert_id _ t); [done|].
      rewrite list_lookup_fmap, Ht. by case_bool_decide.
    + rewrite list_lookup_insert_ne by done. by rewrite list_lookup_fmap, Hc.
  - rewrite list_fmap_insert.
    rewrite <- (app_nil_r (<[t:=_]> _)). apply (owner_inv_step _ _ _ 0); [done| |].
    + rewrite length_fmap. by eapply lookup_lt_Some.
    + left. by destruct ph.
Qed.

Lemma reachable_owner_inv s0 s :
  initial s0 → reachable_from s0 s → owner_inv (channel_of <$> threads s).
Proof.
  intros Hinit. unfold reachable_from. revert s. apply rtc_ind_r.
  - intros t c Hl. rewrite list_lookup_fmap in Hl.
    destruct (threads s0 !! t) as [l|] eqn:Ht; [|done].
    destruct Hinit as [_ Hall]. rewrite Forall_forall in Hall.
    assert (starting l = true) as Hs by (apply Hall; by eapply list_elem_of_lookup_2).
    by destruct l.
  - intros s1 s2 _ Hstep IH. by eapply step_owner_inv.
Qed.

Lemma abandoned_lock s c : lock_inv s → abandoned c s → lock s = Some c.
Proof.
  intros Hinv [(it & rest & Hc) _]. apply Hinv.
  by rewrite list_lookup_fmap, Hc.
Qed.

Lemma step_abandoned c s s' :
  lock_inv s → abandoned c s → step s s' →
  abandoned c s'
  ∧ ∀ t l, threads s !! t = Some l → at_Lock l = true → threads s' !! t = Some l.
Proof.
  intros Hinv Hab Hstep. pose proof (abandoned_lock s c Hinv Hab) as Hlock.
  destruct Hab as [(it0 & rest0 & Hc0) Hnone].
  destruct Hstep as
    [s t l a l' reg' spawn Hl Hls Hfree
    |s t c' ph key p it rest Ht Hc
    |s t c' ph key p l Ht Hc Hclosed]; unfold abandoned; simpl.
  - assert (t ≠ c) as Hne.
    { intros ->. rewrite Hc0 in Hl. injection Hl as <-. inversion Hls. }
    assert (c < length (threads s))%nat as Hlt by (by eapply lookup_lt_Some).
    destruct (lstep_channel_of _ _ _ _ _ _ _ Hls) as [Hch Hspawn].
    split; [split|].
    + exists it0, rest0. rewrite lookup_app_l by (by rewrite length_insert).
      by rewrite list_lookup_insert_ne.
    + intros t0 l0 Hl0. apply lookup_app_Some in Hl0 as [Hl0|[_ Hl0]].
      * apply list_lookup_insert_Some in Hl0 as [(-> & <- & _)|(_ & Hl0)];
          [|by eapply Hnone].
        destruct Hch as [->|[->|[-> _]]]; [done|by eapply Hnone|].
        intros [= ?]. lia.
      * assert ((channel_of <$> option_list spawn) !! (t0 - length (<[t:=l']> (threads s)))%nat
                = Some (channel_of l0)) as Hl1 by (by rewrite list_lookup_fmap, Hl0).
        rewrite Hspawn in Hl1. apply lookup_replicate in Hl1 as [Hl1 _].
        by rewrite Hl1.
    + intros t0 l0 Hl0 Hat.
      assert (t0 ≠ t) as Hne0.
      { intros ->. rewrite Hl in Hl0. injection Hl0 as ->.
        assert (a = Acquire) as -> by (inversion Hls; subst; done).
        rewrite Hfree in Hlock; done. }
      rewrite lookup_app_l.
      * by rewrite list_lookup_insert_ne.
      * rewrite length_insert. by eapply lookup_lt_Some.
  - assert (c' ≠ c) as Hne.
    { intros ->. by eapply (Hnone t). }
    assert (t ≠ c) as Hne' by congruence.
    split; [split|].
    + exists it0, rest0. by rewrite !list_lookup_insert_ne.
    + intros t0 l0 Hl0.
      apply list_lookup_insert_Some in Hl0 as [(-> & <- & _)|(_ & Hl0)]; [done|].
      apply list_lookup_insert_Some in Hl0 as [(-> & <- & _)|(_ & Hl0)];
        [|by eapply Hnone].
      case_bool_decide; simpl; congruence.
    + intros t0 l0 Hl0 Hat.
      assert (t0 ≠ c') as Hn1 by (intros ->; rewrite Hc in Hl0; by injection Hl0 as <-).
      assert (t0 ≠ t) as Hn2 by (intros ->; rewrite Ht in Hl0; by injection Hl0 as <-).
      by rewrite !list_lookup_insert_ne.
  - assert (t ≠ c) as Hne by congruence.
    split; [split|].
    + exists it0, rest0. by rewrite list_lookup_insert_ne.
    + intros t0 l0 Hl0.
      apply list_lookup_insert_Some in Hl0 as [(-> & <- & _)|(_ & Hl0)];
        [by destruct ph|by eapply Hnone].
    + intros t0 l0 Hl0 Hat.
      assert (t0 ≠ t) as Hn2 by (intros ->; rewrite Ht in Hl0; by injection Hl0 as <-).
      by rewrite list_lookup_insert_ne.
Qed.

(** *** A [Publish] that fails on a bus with two message types *)

Definition handler_fail : handler :=
  new_handler (handler_failing 1 "some error") false world0.

Definition item_command : handlerItem :=
  {| Key := "bus_test.SomeCommand";
     Value := [new_handler (handler_command 2) false world0] |}.

(** One goroutine is about to call [Publish(ctx, &query)], another to
    register a further handler. *)
Definition fail_start : state :=
  {| registry := registry2; lock := None;
     threads := [GetLock "*bus_test.GetUserQuery" params1;
                 AddLock "*bus_test.GetUserQuery" handler1] |}.

(** [Publish] (goroutine 0) is inside the call of the failing handler;
    the goroutine of the second [Iter] (goroutine 3) has the entry of
    [SomeCommand] still to send. *)
Definition fail_calling : state :=
  {| registry := registry2; lock := Some 3%nat;
     threads := [InCall 3 "*bus_test.GetUserQuery" params1 handler_fail [];
                 AddLock "*bus_test.GetUserQuery" handler1;
                 IterDone; IterSend [item_command]] |}.

(** [Publish] has returned the error. *)
Definition fail_returned : state :=
  {| registry := registry2; lock := Some 3%nat;
     threads := [Done (Returns (Some (errors_New "some error")));
                 AddLock "*bus_test.GetUserQuery" handler1;
                 IterDone; IterSend [item_command]] |}.

Lemma fail_start_initial : initial fail_start.
Proof. split; [done|]. by repeat constructor. Qed.

Ltac publish_until_call :=
  local_step 0%nat;            (* Get: cm.Lock() *)
  local_step 0%nat;            (* Get: value, ok := cm.items[key] *)
  local_step 0%nat;            (* Get: cm.Unlock() *)
  local_step 0%nat;            (* e.handlers.Iter(), goroutine 2 starts *)
  local_step 2%nat;            (* Iter: cm.Lock() *)
  receive_step 0%nat 2%nat;    (* c <- handlerItem{k, v} *)
  local_step 0%nat;            (* the handler is not async *)
  local_step 0%nat;            (* end of the inner loop *)
  receive_step 0%nat 2%nat;    (* c <- handlerItem{k, v}, another key *)
  local_step 2%nat;            (* Iter: close(c) *)
  local_step 2%nat;            (* Iter: cm.Unlock() *)
  range_end_step 0%nat 2%nat;  (* end of the first loop *)
  local_step 0%nat;            (* e.handlers.Iter(), goroutine 3 starts *)
  local_step 3%nat;            (* Iter: cm.Lock() *)
  receive_step 0%nat 3%nat;    (* c <- handlerItem{k, v} *)
  local_step 0%nat.            (* handler.Handler.Call(params) begins *)

Lemma fail_calling_reachable : reachable_from fail_start fail_calling.
Proof.
  unfold reachable_from. vm_compute. publish_until_call. apply rtc_refl.
Qed.

Lemma fail_returned_reachable : reachable_from fail_start fail_returned.
Proof.
  unfold reachable_from. vm_compute. publish_until_call.
  local_step 0%nat.            (* return err.(error) *)
  apply rtc_refl.
Qed.

Lemma fail_returned_abandoned : abandoned 3 fail_returned.
Proof.
  split; [by eexists _, _|].
  intros [|[|[|[|t]]]] l; simpl; intros [= <-]; done.
Qed.

(** X12.  In every interleaving, also with [Subscribe] running
    alongside, the handlers a [Publish] calls or sends to are handlers
    registered under the key of its message, in the order of the
    registration: what it has still to go through is a run of
    consecutive handlers of the entry the map holds now. *)
Theorem Publish_handlers_are_registered s0 s t l key hs :
  initial s0 → reachable_from s0 s →
  threads s !! t = Some l → remaining l = Some (key, hs) →
  ∃ pre post, Get key (registry s) = ((pre ++ hs ++ post)%list, true).
Proof.
  intros Hinit Hreach Hl Hrem.
  destruct (reachable_snapshot_inv s0 s Hinit Hreach) as [_ Hsnap].
  unfold snapshot_inv in Hsnap. rewrite Forall_forall in Hsnap.
  assert (up_to_date (registry s) l) as Hup.
  { apply Hsnap. by eapply list_elem_of_lookup_2. }
  assert (segment (registry s) key hs) as (pre & post & Hseg).
  { destruct l; simpl in Hrem; try done; by apply Hup. }
  exists pre, post. unfold Get. by rewrite Hseg.
Qed.

Lemma Publish_handlers_are_registered_witness :
  ∃ pre post, Get "*bus_test.GetUserQuery" registry2
              = ((pre ++ [handler_fail] ++ post)%list, true).
Proof.
  apply (Publish_handlers_are_registered fail_start fail_calling 0%nat
           (InCall 3 "*bus_test.GetUserQuery" params1 handler_fail [])
           "*bus_test.GetUserQuery" [handler_fail]
           fail_start_initial fail_calling_reachable); reflexivity.
Defined.

(** X13.  While the goroutine of [Iter] sends, the map does not change
    under it: every entry it has still to send is the entry the map
    holds now. *)
Theorem Iter_entries_are_current s0 s c its it :
  initial s0 → reachable_from s0 s →
  threads s !! c = Some (IterSend its) → it ∈ its →
  Get (Key it) (registry s) = (Value it, true).
Proof.
  intros Hinit Hreach Hc Hin.
  destruct (reachable_snapshot_inv s0 s Hinit Hreach) as [_ Hsnap].
  unfold snapshot_inv in Hsnap. rewrite Forall_forall in Hsnap.
  assert (up_to_date (registry s) (IterSend its)) as Hup.
  { apply Hsnap. by eapply list_elem_of_lookup_2. }
  unfold Get. by rewrite (Hup it Hin).
Qed.

Lemma Iter_entries_are_current_witness :
  Get "bus_test.SomeCommand" registry2 = (Value item_command, true).
Proof.
  apply (Iter_entries_are_current fail_start fail_calling 3%nat [item_command]
           item_command fail_start_initial fail_calling_reachable);
    [reflexivity|left].
Defined.

(** X14.  A [Publish] that returns the error of a synchronous handler
    leaves the loop over the channel of [Iter]; when the goroutine of
    [Iter] has an entry still to send, nobody receives from its channel
    any more. *)
Theorem early_return_abandons_Iter s0 s t c key p h rest result err it its :
  initial s0 → reachable_from s0 s →
  threads s !! t = Some (InCall c key p h rest) →
  Call (Handler h) p = inl result → result !! 0%nat = Some (RError err) →
  threads s !! c = Some (IterSend (it :: its)) →
  ∃ s', step s s'
        ∧ threads s' !! t = Some (Done (Returns (Some err)))
        ∧ abandoned c s'.
Proof.
  intros Hinit Hreach Ht Hcall Hres Hc.
  pose proof (reachable_owner_inv s0 s Hinit Hreach) as Hown.
  assert (t ≠ c) as Hne by congruence.
  assert (t < length (threads s))%nat as Hlt by (by eapply lookup_lt_Some).
  eexists. split; [|split].
  - eapply (step_local s t _ Keep); [exact Ht| |done].
    apply (call_return _ _ _ _ _ _ _ result Hcall).
  - simpl. rewrite app_nil_r, list_lookup_insert_eq by done.
    unfold after_call. by rewrite Hres.
  - unfold abandoned. simpl. rewrite app_nil_r. split.
    + exists it, its. by rewrite list_lookup_insert_ne.
    + intros t0 l0 Hl0 Hch.
      apply list_lookup_insert_Some in Hl0 as [(-> & <- & _)|(Hne0 & Hl0)].
      * unfold after_call in Hch. by rewrite Hres in Hch.
      * destruct (Hown t c) as [_ Huniq].
        { by rewrite list_lookup_fmap, Ht. }
        destruct Hne0. symmetry. apply Huniq.
        by rewrite list_lookup_fmap, Hl0, <- Hch.
Qed.

Lemma early_return_abandons_Iter_witness :
  ∃ s', step fail_calling s'
        ∧ threads s' !! 0%nat = Some (Done (Returns (Some (errors_New "some error"))))
        ∧ abandoned 3 s'.
Proof.
  apply (early_return_abandons_Iter fail_start fail_calling 0%nat 3%nat
           "*bus_test.GetUserQuery" params1 handler_fail []
           [RError (errors_New "some error")] (errors_New "some error")
           item_command [] fail_start_initial fail_calling_reachable);
    reflexivity.
Defined.

(** X15.  Once the goroutine of an [Iter] is abandoned with an entry to
    send, it never reaches its deferred [Unlock]: whatever the
    goroutines do from then on, it holds the lock, and a goroutine that
    waits in the [Lock] of [Add], of [Get] or of another [Iter] waits
    there for ever. *)
Theorem abandoned_Iter_keeps_lock s0 s s' c :
  initial s0 → reachable_from s0 s → abandoned c s → reachable_from s s' →
  lock s' = Some c
  ∧ ∀ t l, threads s !! t = Some l → at_Lock l = true → threads s' !! t = Some l.
Proof.
  intros Hinit Hreach Hab Hrun.
  pose proof (reachable_lock_inv s0 s Hinit Hreach) as Hinv.
  assert (lock_inv s' ∧ abandoned c s'
          ∧ ∀ t l, threads s !! t = Some l → at_Lock l = true →
                   threads s' !! t = Some l) as (Hinv' & Hab' & Hwait).
  { revert s' Hrun. unfold reachable_from. apply rtc_ind_r; [done|].
    intros s1 s2 _ Hstep (Hinv1 & Hab1 & Hwait1).
    destruct (step_abandoned c s1 s2 Hinv1 Hab1 Hstep) as [Hab2 Hwait2].
    split_and!; [by eapply step_lock_inv|done|].
    intros t l Hl Hat. apply Hwait2; [|done]. by apply Hwait1. }
  split; [by apply abandoned_lock|done].
Qed.

Lemma abandoned_Iter_keeps_lock_witness :
  lock fail_returned = Some 3%nat
  ∧ threads fail_returned !! 1%nat = Some (AddLock "*bus_test.GetUserQuery" handler1).
Proof.
  destruct (abandoned_Iter_keeps_lock fail_start fail_returned fail_returned 3%nat
              fail_start_initial fail_returned_reachable fail_returned_abandoned)
    as [Hlock Hwait]; [apply rtc_refl|].
  split; [exact Hlock|]. apply Hwait; reflexivity.
Defined.

End Locking.
